(** * callandcache: a caching forward proxy (src/index.ts)

    A shallow embedding of the cache-aside subsystem of [src/index.ts]:
    the request and response models ([RequestInfo], [ResponseInfo]), the
    file-backed [Cache] (its [set], [get] and [buildFilepath]), the
    [CachableRequest] decorator wrapped around [Fetcher.fetch], and the
    per-connection loop [Server.serveHttp].

    The platform the program runs on is modelled next to it, each part
    under the name the source imports it by: [JSON.stringify] and
    [JSON.parse], the [Sha1] digest of deno's std/hash, [path.join] and
    [ensureFile] of deno's std, and [Deno.readTextFile] and
    [Deno.writeTextFile] over a finite map from paths to file contents.

    Text is modelled as Rocq [string]s, read as the UTF-8 bytes of the
    file or of the JavaScript string they stand for. *)

From Stdlib Require Import ZArith NArith Ascii String List Lia Bool.
From Stdlib Require Import DecimalFacts DecimalN.
From stdpp Require Import gmap strings.
Import ListNotations.

(** ** Characters and text *)

Definition text := list ascii.

Definition chars (s : string) : text := list_ascii_of_string s.

Definition c_quote : ascii := "034"%char.
Definition c_backslash : ascii := "092"%char.
Definition c_newline : ascii := "010"%char.
Definition c_return : ascii := "013"%char.
Definition c_tab : ascii := "009"%char.
Definition c_backspace : ascii := "008"%char.
Definition c_formfeed : ascii := "012"%char.
Definition c_space : ascii := " "%char.

Definition code (c : ascii) : N := N_of_ascii c.

Definition is_ws (c : ascii) : bool :=
  Ascii.eqb c c_space || Ascii.eqb c c_tab || Ascii.eqb c c_newline
  || Ascii.eqb c c_return.

Fixpoint skip_ws (s : text) : text :=
  match s with
  | c :: r => if is_ws c then skip_ws r else s
  | [] => []
  end.

(** [expect c s] is the rest of [s] after its first character when that
    character is [c]. *)
Definition expect (c : ascii) (s : text) : option text :=
  match s with
  | d :: r => if Ascii.eqb d c then Some r else None
  | [] => None
  end.

Fixpoint expect_all (w : text) (s : text) : option text :=
  match w with
  | [] => Some s
  | c :: w' =>
      match expect c s with
      | Some r => expect_all w' r
      | None => None
      end
  end.

(** ** Decimal numerals *)

Definition digit_of (c : ascii) : option (Decimal.uint -> Decimal.uint) :=
  match code c with
  | 48 => Some Decimal.D0 | 49 => Some Decimal.D1 | 50 => Some Decimal.D2
  | 51 => Some Decimal.D3 | 52 => Some Decimal.D4 | 53 => Some Decimal.D5
  | 54 => Some Decimal.D6 | 55 => Some Decimal.D7 | 56 => Some Decimal.D8
  | 57 => Some Decimal.D9
  | _ => None
  end%N.

Definition is_digit (c : ascii) : bool :=
  match digit_of c with Some _ => true | None => false end.

Fixpoint uint_chars (u : Decimal.uint) : text :=
  match u with
  | Decimal.Nil => []
  | Decimal.D0 u => "0"%char :: uint_chars u
  | Decimal.D1 u => "1"%char :: uint_chars u
  | Decimal.D2 u => "2"%char :: uint_chars u
  | Decimal.D3 u => "3"%char :: uint_chars u
  | Decimal.D4 u => "4"%char :: uint_chars u
  | Decimal.D5 u => "5"%char :: uint_chars u
  | Decimal.D6 u => "6"%char :: uint_chars u
  | Decimal.D7 u => "7"%char :: uint_chars u
  | Decimal.D8 u => "8"%char :: uint_chars u
  | Decimal.D9 u => "9"%char :: uint_chars u
  end.

(** The longest run of decimal digits at the head of [s], and what
    follows it. *)
Fixpoint read_digits (s : text) : Decimal.uint * text :=
  match s with
  | c :: r =>
      match digit_of c with
      | Some d => let (u, r') := read_digits r in (d u, r')
      | None => (Decimal.Nil, s)
      end
  | [] => (Decimal.Nil, [])
  end.

Definition Z_chars (z : Z) : text :=
  (if (z <? 0)%Z then ["-"%char] else []) ++ uint_chars (N.to_uint (Z.abs_N z)).

Definition signed (neg : bool) (u : Decimal.uint) : Z :=
  let n := Z.of_N (N.of_uint u) in if neg then (- n)%Z else n.

(** ** JSON values

    [JNum m e] is the number [m * 10^e]: a literal is read exactly, and
    the rounding of IEEE doubles is not modelled.  An object keeps its
    members in the order of the text. *)

#[local] Unset Elimination Schemes.
Inductive json : Type :=
  | JNull
  | JBool (b : bool)
  | JNum (m e : Z)
  | JStr (s : string)
  | JArr (items : list json)
  | JObj (members : list (string * json)).
#[local] Set Elimination Schemes.

(** A JavaScript value that may be [undefined]. *)
Definition jsval := option json.
Definition undefined : jsval := None.

(** *** JSON.stringify *)

Definition hex_digit (n : N) : ascii :=
  if (n <? 10)%N then ascii_of_N (48 + n) else ascii_of_N (87 + n).

(** QuoteJSONString, one character at a time. *)
Definition quote_char (c : ascii) : text :=
  if Ascii.eqb c c_quote then [c_backslash; c_quote]
  else if Ascii.eqb c c_backslash then [c_backslash; c_backslash]
  else if Ascii.eqb c c_backspace then [c_backslash; "b"%char]
  else if Ascii.eqb c c_formfeed then [c_backslash; "f"%char]
  else if Ascii.eqb c c_newline then [c_backslash; "n"%char]
  else if Ascii.eqb c c_return then [c_backslash; "r"%char]
  else if Ascii.eqb c c_tab then [c_backslash; "t"%char]
  else if (code c <? 32)%N then
    [c_backslash; "u"%char; "0"%char; "0"%char;
     hex_digit (code c / 16); hex_digit (code c mod 16)]
  else [c].

Definition quote (s : string) : text :=
  c_quote :: flat_map quote_char (chars s) ++ [c_quote].

(** An integer ([e = 0]), the only kind of number the program writes, is
    printed digit by digit, as JavaScript prints one below 10^21; any
    other number is printed as a literal of the same value. *)
Definition num_chars (m e : Z) : text :=
  Z_chars m ++ (if (e =? 0)%Z then [] else "e"%char :: Z_chars e).

(** A line break followed by the indentation of level [ind]; nothing
    when no [gap] was asked for. *)
Definition newline (gap : bool) (ind : nat) : text :=
  if gap then c_newline :: repeat c_space (2 * ind) else [].

Definition wrap (gap : bool) (ind : nat) (opn cls : ascii) (parts : list text) : text :=
  match parts with
  | [] => [opn; cls]
  | p :: ps =>
      opn :: newline gap (S ind) ++ p
        ++ flat_map (fun q => ","%char :: newline gap (S ind) ++ q) ps
        ++ newline gap ind ++ [cls]
  end.

Definition colon (gap : bool) : text :=
  if gap then [":"%char; c_space] else [":"%char].

Fixpoint ser (gap : bool) (ind : nat) (v : json) {struct v} : text :=
  match v with
  | JNull => chars "null"
  | JBool true => chars "true"
  | JBool false => chars "false"
  | JNum m e => num_chars m e
  | JStr s => quote s
  | JArr items => wrap gap ind "["%char "]"%char (map (ser gap (S ind)) items)
  | JObj members =>
      wrap gap ind "{"%char "}"%char
        (map (fun kv => quote (fst kv) ++ colon gap ++ ser gap (S ind) (snd kv)) members)
  end.

(** [JSON.stringify(v)] when [gap] is [false], and
    [JSON.stringify(v, null, '  ')] when it is [true]. *)
Definition JSON_stringify (gap : bool) (v : json) : string :=
  string_of_list_ascii (ser gap 0 v).

(** *** JSON.parse *)

Definition hex_val (c : ascii) : option N :=
  let n := code c in
  if ((48 <=? n) && (n <=? 57))%N then Some (n - 48)%N
  else if ((97 <=? n) && (n <=? 102))%N then Some (n - 87)%N
  else if ((65 <=? n) && (n <=? 70))%N then Some (n - 55)%N
  else None.

Definition hex4 (a b c d : ascii) : option N :=
  match hex_val a, hex_val b, hex_val c, hex_val d with
  | Some x, Some y, Some z, Some w => Some (((x * 16 + y) * 16 + z) * 16 + w)%N
  | _, _, _, _ => None
  end.

(** The UTF-8 bytes of a code point (a lone surrogate is written the
    same way, in three bytes). *)
Definition utf8 (cp : N) : text :=
  if (cp <? 128)%N then [ascii_of_N cp]
  else if (cp <? 2048)%N then
    [ascii_of_N (192 + cp / 64); ascii_of_N (128 + cp mod 64)]
  else if (cp <? 65536)%N then
    [ascii_of_N (224 + cp / 4096); ascii_of_N (128 + (cp / 64) mod 64);
     ascii_of_N (128 + cp mod 64)]
  else
    [ascii_of_N (240 + cp / 262144); ascii_of_N (128 + (cp / 4096) mod 64);
     ascii_of_N (128 + (cp / 64) mod 64); ascii_of_N (128 + cp mod 64)].

Definition is_high_surrogate (cp : N) : bool := ((55296 <=? cp) && (cp <=? 56319))%N.
Definition is_low_surrogate (cp : N) : bool := ((56320 <=? cp) && (cp <=? 57343))%N.

Definition unescape (c : ascii) : option ascii :=
  if Ascii.eqb c c_quote then Some c_quote
  else if Ascii.eqb c c_backslash then Some c_backslash
  else if Ascii.eqb c "/"%char then Some "/"%char
  else if Ascii.eqb c "b"%char then Some c_backspace
  else if Ascii.eqb c "f"%char then Some c_formfeed
  else if Ascii.eqb c "n"%char then Some c_newline
  else if Ascii.eqb c "r"%char then Some c_return
  else if Ascii.eqb c "t"%char then Some c_tab
  else None.

(** [acc] holds the characters read so far, last first; [hi] is a high
    surrogate read from a [\u] escape and not yet paired. *)
Definition flush (hi : option N) (acc : text) : text :=
  match hi with
  | Some h => rev (utf8 h) ++ acc
  | None => acc
  end.

(** The characters of a string literal, after its opening quote. *)
Fixpoint parse_chars (s : text) (hi : option N) (acc : text) {struct s}
  : option (string * text) :=
  match s with
  | [] => None
  | c :: r =>
      if Ascii.eqb c c_quote then
        Some (string_of_list_ascii (rev (flush hi acc)), r)
      else if Ascii.eqb c c_backslash then
        match r with
        | [] => None
        | e :: r1 =>
            if Ascii.eqb e "u"%char then
              match r1 with
              | h1 :: h2 :: h3 :: h4 :: r2 =>
                  match hex4 h1 h2 h3 h4 with
                  | None => None
                  | Some cp =>
                      if is_high_surrogate cp then
                        parse_chars r2 (Some cp) (flush hi acc)
                      else
                        match hi with
                        | Some h =>
                            if is_low_surrogate cp then
                              parse_chars r2 None
                                (rev (utf8 (65536 + (h - 55296) * 1024 + (cp - 56320))%N) ++ acc)
                            else parse_chars r2 None (rev (utf8 cp) ++ flush hi acc)
                        | None => parse_chars r2 None (rev (utf8 cp) ++ acc)
                        end
                  end
              | _ => None
              end
            else
              match unescape e with
              | Some c' => parse_chars r1 None (c' :: flush hi acc)
              | None => None
              end
        end
      else if (code c <? 32)%N then None
      else parse_chars r None (c :: flush hi acc)
  end.

Definition parse_sign (s : text) : bool * text :=
  match expect "-"%char s with
  | Some r => (true, r)
  | None => (false, s)
  end.

(** [. digits], when present. *)
Definition parse_frac (s : text) : option (Decimal.uint * text) :=
  match expect "."%char s with
  | Some r =>
      match read_digits r with
      | (Decimal.Nil, _) => None
      | (f, r') => Some (f, r')
      end
  | None => Some (Decimal.Nil, s)
  end.

(** [e] or [E], an optional sign, digits; when present. *)
Definition parse_exp (s : text) : option (Z * text) :=
  match s with
  | c :: r =>
      if Ascii.eqb c "e"%char || Ascii.eqb c "E"%char then
        let (neg, r1) :=
          match expect "+"%char r with
          | Some r' => (false, r')
          | None => parse_sign r
          end in
        match read_digits r1 with
        | (Decimal.Nil, _) => None
        | (x, r2) => Some (signed neg x, r2)
        end
      else Some (0%Z, s)
  | [] => Some (0%Z, s)
  end.

Definition parse_number (s : text) : option (json * text) :=
  let (neg, s1) := parse_sign s in
  let (ip, s2) := read_digits s1 in
  if Decimal.uint_beq (Decimal.unorm ip) ip then
    match parse_frac s2 with
    | Some (fp, s3) =>
        match parse_exp s3 with
        | Some (x, s4) =>
            Some (JNum (signed neg (Decimal.app ip fp))
                       (x - Z.of_nat (Decimal.nb_digits fp))%Z, s4)
        | None => None
        end
    | None => None
    end
  else None.

Definition literal (w : string) (v : json) (s : text) : option (json * text) :=
  match expect_all (chars w) s with
  | Some r => Some (v, r)
  | None => None
  end.

(** A value that is no object and no array, from its first character
    [c] on. *)
Definition parse_atom (c : ascii) (r : text) : option (json * text) :=
  if Ascii.eqb c c_quote then
    match parse_chars r None [] with
    | Some (str, r') => Some (JStr str, r')
    | None => None
    end
  else if Ascii.eqb c "t"%char then literal "rue" (JBool true) r
  else if Ascii.eqb c "f"%char then literal "alse" (JBool false) r
  else if Ascii.eqb c "n"%char then literal "ull" JNull r
  else parse_number (c :: r).

(** The three mutually recursive parts of the grammar, each written over
    the parsers it calls: a value, the items of an array after its [[],
    and the members of an object after its [{]. *)
Definition value_body
  (members : text -> option (list (string * json) * text))
  (items : text -> option (list json * text)) (s : text) : option (json * text) :=
  match skip_ws s with
  | [] => None
  | c :: r =>
      if Ascii.eqb c "{"%char then
        match expect "}"%char (skip_ws r) with
        | Some r' => Some (JObj [], r')
        | None =>
            match members r with
            | Some (ms, r') => Some (JObj ms, r')
            | None => None
            end
        end
      else if Ascii.eqb c "["%char then
        match expect "]"%char (skip_ws r) with
        | Some r' => Some (JArr [], r')
        | None =>
            match items r with
            | Some (vs, r') => Some (JArr vs, r')
            | None => None
            end
        end
      else parse_atom c r
  end.

Definition items_body
  (value : text -> option (json * text))
  (items : text -> option (list json * text)) (s : text)
  : option (list json * text) :=
  match value s with
  | Some (v, r) =>
      match skip_ws r with
      | c :: r' =>
          if Ascii.eqb c ","%char then
            match items r' with
            | Some (vs, r'') => Some (v :: vs, r'')
            | None => None
            end
          else if Ascii.eqb c "]"%char then Some ([v], r')
          else None
      | [] => None
      end
  | None => None
  end.

Definition members_body
  (value : text -> option (json * text))
  (members : text -> option (list (string * json) * text)) (s : text)
  : option (list (string * json) * text) :=
  match expect c_quote (skip_ws s) with
  | Some r =>
      match parse_chars r None [] with
      | Some (k, r1) =>
          match expect ":"%char (skip_ws r1) with
          | Some r2 =>
              match value r2 with
              | Some (v, r3) =>
                  match skip_ws r3 with
                  | c :: r4 =>
                      if Ascii.eqb c ","%char then
                        match members r4 with
                        | Some (ms, r5) => Some ((k, v) :: ms, r5)
                        | None => None
                        end
                      else if Ascii.eqb c "}"%char then Some ([(k, v)], r4)
                      else None
                  | [] => None
                  end
              | None => None
              end
          | None => None
          end
      | None => None
      end
  | None => None
  end.

Fixpoint parse_value (fuel : nat) (s : text) {struct fuel} : option (json * text) :=
  match fuel with
  | O => None
  | S f => value_body (parse_members f) (parse_items f) s
  end

with parse_items (fuel : nat) (s : text) {struct fuel} : option (list json * text) :=
  match fuel with
  | O => None
  | S f => items_body (parse_value f) (parse_items f) s
  end

with parse_members (fuel : nat) (s : text) {struct fuel}
  : option (list (string * json) * text) :=
  match fuel with
  | O => None
  | S f => members_body (parse_value f) (parse_members f) s
  end.

(** [JSON.parse(s)]: [None] stands for the SyntaxError it throws. *)
Definition JSON_parse (s : string) : option json :=
  let t := chars s in
  match parse_value (S (2 * length t)) t with
  | Some (v, r) =>
      match skip_ws r with
      | [] => Some v
      | _ :: _ => None
      end
  | None => None
  end.

(** ** Sha1 (deno std/hash/sha1.ts): the SHA-1 digest, in hexadecimal *)

Module Sha1.

Definition mask : N := 4294967295.

Definition add32 (x y : N) : N := N.land (x + y) mask.

Definition rotl (n x : N) : N :=
  N.land (N.lor (N.shiftl x n) (N.shiftr x (32 - n))) mask.

(** The message followed by the bit 1, zeros up to 56 modulo 64 bytes,
    and the length of the message in bits on eight bytes. *)
Definition pad (msg : list N) : list N :=
  let len := length msg in
  let zeros := (119 - len mod 64) mod 64 in
  let bits := N.of_nat (8 * len) in
  msg ++ 128%N :: repeat 0%N zeros
    ++ map (fun i => N.land (N.shiftr bits (8 * N.of_nat (7 - i))) 255) (seq 0 8).

Fixpoint words (fuel : nat) (bytes : list N) : list N :=
  match fuel, bytes with
  | S f, a :: b :: c :: d :: r =>
      (((a * 256 + b) * 256 + c) * 256 + d)%N :: words f r
  | _, _ => []
  end.

(** The message schedule, last word first: [ws] holds the words
    computed so far. *)
Fixpoint schedule (n : nat) (ws : list N) : list N :=
  match n with
  | O => ws
  | S n' =>
      let w :=
        rotl 1 (N.lxor (N.lxor (nth 2 ws 0%N) (nth 7 ws 0%N))
                       (N.lxor (nth 13 ws 0%N) (nth 15 ws 0%N))) in
      schedule n' (w :: ws)
  end.

Definition state : Type := N * N * N * N * N.

Definition round (st : state) (iw : nat * N) : state :=
  let '(a, b, c, d, e) := st in
  let (i, w) := iw in
  let (f, k) :=
    if (i <? 20)%nat then
      (N.lor (N.land b c) (N.land (N.lxor b mask) d), 1518500249%N)
    else if (i <? 40)%nat then
      (N.lxor (N.lxor b c) d, 1859775393%N)
    else if (i <? 60)%nat then
      (N.lor (N.lor (N.land b c) (N.land b d)) (N.land c d), 2400959708%N)
    else
      (N.lxor (N.lxor b c) d, 3395469782%N) in
  let temp := add32 (add32 (add32 (add32 (rotl 5 a) f) e) k) w in
  (temp, a, rotl 30 b, c, d).

Definition block (h : state) (chunk : list N) : state :=
  let ws := rev (schedule 64 (rev (words 16 chunk))) in
  let '(a, b, c, d, e) := fold_left round (combine (seq 0 80) ws) h in
  let '(h0, h1, h2, h3, h4) := h in
  (add32 h0 a, add32 h1 b, add32 h2 c, add32 h3 d, add32 h4 e).

Fixpoint blocks (fuel : nat) (h : state) (bytes : list N) : state :=
  match fuel with
  | O => h
  | S f =>
      match bytes with
      | [] => h
      | _ => blocks f (block h (firstn 64 bytes)) (skipn 64 bytes)
      end
  end.

Definition init : state :=
  (1732584193, 4023233417, 2562383102, 271733878, 3285377520)%N.

Definition hex32 (x : N) : text :=
  map (fun i => hex_digit (N.land (N.shiftr x (4 * N.of_nat (7 - i))) 15)) (seq 0 8).

(** [new Sha1().update(s).hex()] *)
Definition hex (s : string) : string :=
  let bytes := pad (map code (chars s)) in
  let '(h0, h1, h2, h3, h4) := blocks (length bytes) init bytes in
  string_of_list_ascii (hex32 h0 ++ hex32 h1 ++ hex32 h2 ++ hex32 h3 ++ hex32 h4).

End Sha1.

(** ** path.join (deno std/path, POSIX flavour) *)

Module path.

Definition sep : ascii := "/"%char.

(** The segments of [s] between separators; [cur] is the segment being
    read, last character first. *)
Fixpoint split (s : text) (cur : text) : list text :=
  match s with
  | [] => [rev cur]
  | c :: r => if Ascii.eqb c sep then rev cur :: split r [] else split r (c :: cur)
  end.

(** [normalizeString]: the segments kept so far are in [stack], last
    one first. *)
Definition step (allowAboveRoot : bool) (stack : list text) (seg : text) : list text :=
  if decide (seg = []) then stack
  else if decide (seg = chars ".") then stack
  else if decide (seg = chars "..") then
    match stack with
    | top :: below =>
        if decide (top = chars "..") then seg :: stack else below
    | [] => if allowAboveRoot then [seg] else []
    end
  else seg :: stack.

Fixpoint join_with (segs : list text) : text :=
  match segs with
  | [] => []
  | [x] => x
  | x :: rest => x ++ sep :: join_with rest
  end.

Definition normalize (p : text) : text :=
  match p with
  | [] => chars "."
  | first :: _ =>
      let isAbsolute := Ascii.eqb first sep in
      let trailingSeparator := Ascii.eqb (List.last p first) sep in
      let body := join_with (rev (fold_left (step (negb isAbsolute)) (split p []) [])) in
      let body := if decide (body = []) then (if isAbsolute then [] else chars ".") else body in
      let body :=
        if negb (bool_decide (body = [])) && trailingSeparator then body ++ [sep] else body in
      if isAbsolute then sep :: body else body
  end.

Definition join (paths : list string) : string :=
  string_of_list_ascii
    (normalize (join_with (filter (fun p => p <> []) (map chars paths)))).

End path.

(** ** URL

    A URL object is kept as its serialization, what [toString()]
    returns. *)

Record URL := { href : string }.

Definition URL_toString (u : URL) : string := href u.

(** The text of [s] up to the first character satisfying [stop], and the
    text from that character on. *)
Fixpoint break (stop : ascii -> bool) (s : text) : text * text :=
  match s with
  | [] => ([], [])
  | c :: r => if stop c then ([], s) else let (a, b) := break stop r in (c :: a, b)
  end.

(** What follows the last [@] of [s] ([s] itself when it has none). *)
Fixpoint after_userinfo (s : text) : text :=
  match s with
  | [] => []
  | c :: r =>
      if existsb (Ascii.eqb "@"%char) r then after_userinfo r
      else if Ascii.eqb c "@"%char then r else s
  end.

(** [url.host]: host and port as the serialization shows them, between
    the [//] after the scheme (and any user information) and the path. *)
Definition URL_host (u : URL) : string :=
  match snd (break (Ascii.eqb ":"%char) (chars (href u))) with
  | _ :: a :: b :: r =>
      if Ascii.eqb a "/"%char && Ascii.eqb b "/"%char then
        string_of_list_ascii
          (after_userinfo
             (fst (break (fun c => Ascii.eqb c "/"%char || Ascii.eqb c "?"%char
                                   || Ascii.eqb c "#"%char) r)))
      else ""%string
  | _ => ""%string
  end.

(** A [Headers] object, as the sequence of pairs its iteration yields. *)
Definition Headers := list (string * string).

(** ** Errors and results *)

(** What the operating system can answer to a file operation, besides
    success and "not found". *)
Inductive io_fault : Type := PermissionDenied | IsADirectory | DiskError.

(** The exceptions of the program: [Deno.errors.NotFound], any other
    I/O error, the SyntaxError of [JSON.parse], the TypeError of a
    property read on [null] or [undefined] (and of a failed [fetch] or
    [new URL]), and the program's own [errors.Deserialize]. *)
Inductive error : Type :=
  | NotFound
  | IO (f : io_fault)
  | SyntaxError
  | TypeError
  | Deserialize.

Inductive result (A : Type) : Type :=
  | Ok (a : A)
  | Err (e : error).
Arguments Ok {A} a.
Arguments Err {A} e.

Definition rbind {A B} (r : result A) (k : A -> result B) : result B :=
  match r with
  | Ok a => k a
  | Err e => Err e
  end.

(** *** Property reads

    [member k ms] is the value an object with members [ms] has for key
    [k]: the last one the text gives, [undefined] when it gives none. *)
Fixpoint member (k : string) (ms : list (string * json)) : jsval :=
  match ms with
  | [] => undefined
  | (k', v) :: ms' =>
      match member k ms' with
      | Some x => Some x
      | None => if String.eqb k' k then Some v else undefined
      end
  end.

(** [v.k], for the keys the program reads ([res], [status], [headers],
    [data]): a TypeError on [null] and [undefined], the member of an
    object, and [undefined] on any other value (no number, string,
    boolean or array has such a property). *)
Definition get_prop (v : jsval) (k : string) : result jsval :=
  match v with
  | None => Err TypeError
  | Some JNull => Err TypeError
  | Some (JObj ms) => Ok (member k ms)
  | Some _ => Ok undefined
  end.

(** [o[k] = v] on an object with members [o]. *)
Fixpoint obj_set (k : string) (v : json) (o : list (string * json))
  : list (string * json) :=
  match o with
  | [] => [(k, v)]
  | (k', v') :: o' =>
      if String.eqb k' k then (k, v) :: o' else (k', v') :: obj_set k v o'
  end.

(** The loop [for (const [k, v] of headers) { record[k] = v }].  (The
    members are kept in the order they were set: header names are not
    the integer-like keys that an object lists first.) *)
Definition headers_record (h : Headers) : json :=
  JObj (fold_left (fun o kv => obj_set (fst kv) (JStr (snd kv)) o) h []).

(** The members of an object literal that [JSON.stringify] writes: one
    whose value is [undefined] is left out. *)
Fixpoint defined (ms : list (string * jsval)) : list (string * json) :=
  match ms with
  | [] => []
  | (k, Some v) :: ms' => (k, v) :: defined ms'
  | (_, None) :: ms' => defined ms'
  end.

(** [x === n] for a number [n]. *)
Definition strict_eq_Z (x : jsval) (n : Z) : bool :=
  match x with
  | Some (JNum m e) =>
      if (0 <=? e)%Z then (m * 10 ^ e =? n)%Z else (m =? n * 10 ^ (- e))%Z
  | _ => false
  end.

(** ** Models (src/index.ts, lines 19-120) *)

(** The transport's [Request], its body already read; of its URL, the
    query parameters. *)
Module Request.

Record t := mk {
  searchParams : list (string * string);
  method : string;
  headers : Headers;
  text : string;
}.

End Request.

Module RequestInfo.

Record t := mk {
  url : URL;
  method : string;
  headers : Headers;
  body : string;
}.

Definition fromRequest (req : Request.t) (url : URL) : t :=
  let body := Request.text req in
  mk url (Request.method req) (Request.headers req) body.

Definition toJSON (this : t) : json :=
  JObj [("url", JStr (URL_toString (url this)));
        ("method", JStr (method this));
        ("headers", headers_record (headers this));
        ("body", JStr (body this))]%string.

(** [toJSON()] with [payload.headers = {}]. *)
Definition payload (this : t) : json :=
  match toJSON this with
  | JObj ms => JObj (obj_set "headers" (JObj []) ms)
  | v => v
  end.

Definition hash (this : t) : string :=
  Sha1.hex (JSON_stringify false (payload this)).

End RequestInfo.

(** The transport's [Response], its body already read. *)
Module Response.

Record t := mk {
  status : Z;
  headers : Headers;
  text : string;
}.

End Response.

Module ResponseInfo.

(** The fields hold what the constructor was given: [fromJSON] passes on
    whatever a record has under their names, [undefined] included. *)
Record t := mk {
  status : jsval;
  headers : jsval;
  data : jsval;
}.

Definition fromResponse (res : Response.t) : t :=
  let isSuccessful := (Response.status res =? 200)%Z in
  let data := if isSuccessful then Response.text res else ""%string in
  mk (Some (JNum (Response.status res) 0))
     (Some (headers_record (Response.headers res)))
     (Some (JStr data)).

Definition isSuccessful (this : t) : bool := strict_eq_Z (status this) 200.

Definition toJSON (this : t) : json :=
  JObj (defined [("status", status this); ("headers", headers this);
                 ("data", data this)]%string).

Definition fromJSON (json : jsval) : result t :=
  match
    rbind (get_prop json "status") (fun s =>
    rbind (get_prop json "headers") (fun h =>
    rbind (get_prop json "data") (fun d =>
    Ok (mk s h d))))
  with
  | Ok r => Ok r
  | Err _ => Err Deserialize
  end.

End ResponseInfo.

(** ** The world the program runs in *)

Inductive io_op : Type := OpStat | OpRead | OpCreate | OpWrite.

(** [files] maps the path of each regular file to its content;
    [faults op p] is the I/O error the system answers to [op] on [p], if
    any; [now] is the clock's reading; [origin] is what the network
    answers to a fetch. *)
Record World := {
  files : gmap string string;
  faults : io_op -> string -> option io_fault;
  now : Z;
  origin : URL -> Headers -> result Response.t;
}.

Definition with_files (w : World) (fs : gmap string string) : World :=
  {| files := fs; faults := faults w; now := now w; origin := origin w |}.

(** What a run lets the outside see. *)
Inductive event : Type :=
  | Log (line : string)
  | Fetch (u : URL) (h : Headers)
  | Respond (body status headers : jsval).

Record outcome (A : Type) := {
  value : result A;
  world : World;
  trace : list event;
}.
Arguments value {A} o.
Arguments world {A} o.
Arguments trace {A} o.

(** A computation: state passing over the world, exceptions, and the
    events emitted on the way. *)
Definition M (A : Type) : Type := World -> outcome A.

Definition ret {A} (a : A) : M A :=
  fun w => {| value := Ok a; world := w; trace := [] |}.

Definition throw {A} (e : error) : M A :=
  fun w => {| value := Err e; world := w; trace := [] |}.

Definition lift {A} (r : result A) : M A :=
  fun w => {| value := r; world := w; trace := [] |}.

Definition bind {A B} (m : M A) (k : A -> M B) : M B :=
  fun w =>
    let o := m w in
    match value o with
    | Ok a =>
        let o' := k a (world o) in
        {| value := value o'; world := world o'; trace := trace o ++ trace o' |}
    | Err e => {| value := Err e; world := world o; trace := trace o |}
    end.

Definition try_catch {A} (m : M A) (handler : error -> M A) : M A :=
  fun w =>
    let o := m w in
    match value o with
    | Ok _ => o
    | Err e =>
        let o' := handler e (world o) in
        {| value := value o'; world := world o'; trace := trace o ++ trace o' |}
    end.

Notation "x <- m ;; k" := (bind m (fun x => k))
  (at level 100, m at next level, right associativity).
Notation "m ;;; k" := (bind m (fun _ => k))
  (at level 100, right associativity).

(** *** Platform operations *)

Definition console_log (line : string) : M unit :=
  fun w => {| value := Ok tt; world := w; trace := [Log line] |}.

Definition Date_now : M Z := fun w => ret (now w) w.

Definition Deno_readTextFile (p : string) : M string :=
  fun w =>
    match faults w OpRead p with
    | Some f => throw (IO f) w
    | None =>
        match files w !! p with
        | Some content => ret content w
        | None => throw NotFound w
        end
    end.

Definition Deno_writeTextFile (p : string) (content : string) : M unit :=
  fun w =>
    match faults w OpWrite p with
    | Some f => throw (IO f) w
    | None => ret tt (with_files w (<[p := content]> (files w)))
    end.

(** [ensureFile] of deno std/fs: nothing to do for a file that exists;
    otherwise its directories and an empty file are created. *)
Definition ensureFile (p : string) : M unit :=
  fun w =>
    match faults w OpStat p with
    | Some f => throw (IO f) w
    | None =>
        match files w !! p with
        | Some _ => ret tt w
        | None =>
            match faults w OpCreate p with
            | Some f => throw (IO f) w
            | None => ret tt (with_files w (<[p := ""%string]> (files w)))
            end
        end
    end.

(** The global [fetch(url, { headers })]. *)
Definition fetch (u : URL) (h : Headers) : M Response.t :=
  fun w => {| value := origin w u h; world := w; trace := [Fetch u h] |}.

(** ** Cache (src/index.ts, lines 205-244) *)

Module Cache.

Definition buildFilepath (req : RequestInfo.t) : string :=
  path.join ["./tmp/cache"; URL_host (RequestInfo.url req);
             RequestInfo.hash req +:+ ".json"]%string.

(** The [CachedItem] that [set] writes at time [date]. *)
Definition item (date : Z) (req : RequestInfo.t) (res : ResponseInfo.t) : json :=
  JObj [("date", JNum date 0); ("req", RequestInfo.toJSON req);
        ("res", ResponseInfo.toJSON res)]%string.

Definition set (req : RequestInfo.t) (res : ResponseInfo.t) : M unit :=
  if negb (ResponseInfo.isSuccessful res) then
    console_log "Skip cache response because the call was not successful"
  else
    let filepath := buildFilepath req in
    ensureFile filepath ;;;
    date <- Date_now ;;
    Deno_writeTextFile filepath (JSON_stringify true (item date req res)) ;;;
    console_log ("Cached " +:+ filepath).

Definition JSON_parse_or_throw (s : string) : result json :=
  match JSON_parse s with
  | Some v => Ok v
  | None => Err SyntaxError
  end.

Definition get (req : RequestInfo.t) : M (option ResponseInfo.t) :=
  let filepath := buildFilepath req in
  try_catch
    (resRaw <- Deno_readTextFile filepath ;;
     res <- lift (JSON_parse_or_throw resRaw) ;;
     res_res <- lift (get_prop (Some res) "res") ;;
     data <- lift (ResponseInfo.fromJSON res_res) ;;
     ret (Some data))
    (fun err =>
       match err with
       | NotFound | Deserialize => ret None
       | _ => throw err
       end).

End Cache.

(** ** Decorators (src/index.ts, lines 126-143) *)

Definition CachableRequest (method : RequestInfo.t -> M ResponseInfo.t)
  (req : RequestInfo.t) : M ResponseInfo.t :=
  fromCache <- Cache.get req ;;
  match fromCache with
  | Some hit =>
      console_log ("Cache hit " +:+ RequestInfo.method req +:+ " "
                   +:+ URL_toString (RequestInfo.url req)) ;;;
      ret hit
  | None =>
      console_log ("Cache miss " +:+ RequestInfo.method req +:+ " "
                   +:+ URL_toString (RequestInfo.url req)) ;;;
      fromFetch <- method req ;;
      Cache.set req fromFetch ;;;
      ret fromFetch
  end.

(** ** Fetcher (src/index.ts, lines 192-199) *)

Module Fetcher.

(** The method as written, before the decorator replaces it. *)
Definition fetch_origin (req : RequestInfo.t) : M ResponseInfo.t :=
  res <- fetch (RequestInfo.url req) (RequestInfo.headers req) ;;
  ret (ResponseInfo.fromResponse res).

(** [Fetcher.fetch], decorated with [@CachableRequest()]. *)
Definition fetch : RequestInfo.t -> M ResponseInfo.t :=
  CachableRequest fetch_origin.

End Fetcher.

(** ** Server (src/index.ts, lines 149-186) *)

(** [url.searchParams.get(name)]: the first value given under [name],
    [null] when there is none. *)
Fixpoint searchParams_get (name : string) (ps : list (string * string))
  : option string :=
  match ps with
  | [] => None
  | (k, v) :: ps' => if String.eqb k name then Some v else searchParams_get name ps'
  end.

Definition respondWith (body status headers : jsval) : M unit :=
  fun w => {| value := Ok tt; world := w; trace := [Respond body status headers] |}.

Module Server.
Section WithPlatform.

(** [new URL(s)], the platform's URL parser: the URL, or the TypeError
    it throws. *)
Variable URL_new : string -> result URL.

(** The fetcher the server was constructed with. *)
Variable cachedFetcher_fetch : RequestInfo.t -> M ResponseInfo.t.

(** The loop over the request events of one connection, each given by
    its request; [!reqURL] holds of [null] and of the empty string. *)
Fixpoint serveHttp (httpConn : list Request.t) : M unit :=
  match httpConn with
  | [] => ret tt
  | request :: rest =>
      match searchParams_get "u" (Request.searchParams request) with
      | None | Some EmptyString =>
          respondWith (Some (JStr "")) (Some (JNum 404 0)) undefined
      | Some reqURL =>
          url <- lift (URL_new reqURL) ;;
          let req := RequestInfo.fromRequest request url in
          res <- cachedFetcher_fetch req ;;
          respondWith (ResponseInfo.data res) (ResponseInfo.status res)
            (ResponseInfo.headers res) ;;;
          serveHttp rest
      end
  end.

End WithPlatform.
End Server.

(** ** Notions used to state the properties *)

(** No I/O error is answered to any operation on the path [p]. *)
Definition fault_free (w : World) (p : string) : Prop :=
  forall op, faults w op p = None.

(** [v.k] for a value [v] other than [null]. *)
Definition prop (v : json) (k : string) : jsval :=
  match v with
  | JObj ms => member k ms
  | _ => undefined
  end.

(** What [Cache.get] answers for a file that holds the JSON value [v],
    [v] not [null]: the descriptor made of the [res] member, whatever it
    is, unless that member is missing or [null]. *)
Definition entry_response (v : json) : option ResponseInfo.t :=
  match prop v "res" with
  | None => None
  | Some JNull => None
  | Some r => Some (ResponseInfo.mk (prop r "status") (prop r "headers") (prop r "data"))
  end.

(** Every file of the store is the record of a successful response, or
    is empty (what [ensureFile] creates before the record is written). *)
Definition successful_entries (fs : gmap string string) : Prop :=
  forall p content,
    fs !! p = Some content ->
    content = ""%string
    \/ exists date req res,
         content = JSON_stringify true (Cache.item date req res)
         /\ ResponseInfo.isSuccessful res = true.

(** The number of calls of the global [fetch] in a trace. *)
Fixpoint fetches (t : list event) : nat :=
  match t with
  | [] => 0
  | Fetch _ _ :: t' => S (fetches t')
  | _ :: t' => fetches t'
  end.

(** The log lines of the decorator and of the cache. *)
Definition hit_line (req : RequestInfo.t) : string :=
  "Cache hit " +:+ RequestInfo.method req +:+ " " +:+ URL_toString (RequestInfo.url req).

Definition miss_line (req : RequestInfo.t) : string :=
  "Cache miss " +:+ RequestInfo.method req +:+ " " +:+ URL_toString (RequestInfo.url req).

Definition skip_line : string :=
  "Skip cache response because the call was not successful".

(** The response of the server to a request without target URL. *)
Definition not_found_response : event :=
  Respond (Some (JStr "")) (Some (JNum 404 0)) undefined.

(** *** For the parser: where a printed number ends, and the fuel a
    value needs *)

(** [stops r]: a number printed in front of [r] ends where [r] begins. *)
Definition stops (r : text) : bool :=
  match r with
  | [] => true
  | c :: _ =>
      negb (is_digit c || Ascii.eqb c "."%char || Ascii.eqb c "e"%char
            || Ascii.eqb c "E"%char)
  end.

Definition starts_value (s : text) : bool :=
  match s with
  | c :: _ => negb (is_ws c || Ascii.eqb c "]"%char || Ascii.eqb c "}"%char)
  | [] => false
  end.

Definition is_num_head (c : ascii) : bool := Ascii.eqb c "-"%char || is_digit c.

Definition need_list (ns : list nat) : nat :=
  fold_right (fun n acc => S (Nat.max n acc)) 0 ns.

(** Fuel enough for [parse_value] to read the text of [v]. *)
Fixpoint need (v : json) : nat :=
  match v with
  | JArr items => S (need_list (map need items))
  | JObj members => S (need_list (map (fun kv => need (snd kv)) members))
  | _ => 1
  end.

Definition member_text (gap : bool) (ind : nat) (kv : string * json) : text :=
  quote (fst kv) ++ colon gap ++ ser gap (S ind) (snd kv).

(** [parse_value] reads [v] back from its text, whatever follows. *)
Definition reads_back (gap : bool) (v : json) : Prop :=
  forall ind fuel rest,
    need v <= fuel -> stops rest = true ->
    parse_value fuel (ser gap ind v ++ rest) = Some (v, rest).

(** *** Sample requests, responses and worlds *)

Module Sample.

Definition req_a : RequestInfo.t :=
  RequestInfo.mk {| href := "http://example.com/a" |} "GET"
    [("user-agent", "curl/8.0")]%string "".

(** The same URL, method and body as [req_a], other headers. *)
Definition req_b : RequestInfo.t :=
  RequestInfo.mk {| href := "http://example.com/a" |} "GET"
    [("accept", "*/*"); ("user-agent", "firefox")]%string "".

Definition hello : Response.t :=
  Response.mk 200 [("content-type", "text/plain")]%string "hello".

Definition failure : Response.t := Response.mk 500 [] "internal error".

Definition res_hello : ResponseInfo.t := ResponseInfo.fromResponse hello.

Definition res_other : ResponseInfo.t :=
  ResponseInfo.fromResponse (Response.mk 200 [] "other").

(** A world with the given files and origin, and no I/O error. *)
Definition world_with (fs : gmap string string)
  (answer : result Response.t) : World :=
  {| files := fs; faults := fun _ _ => None; now := 1700000000000;
     origin := fun _ _ => answer |}.

(** The cache file of [req_a] holds [content]. *)
Definition cached (content : string) : World :=
  world_with {[ Cache.buildFilepath req_a := content ]} (Ok hello).

Definition empty_world (answer : result Response.t) : World :=
  world_with ∅ answer.

(** The text of a record whose [res] member is an empty object. *)
Definition empty_res : string := JSON_stringify false (JObj [("res", JObj [])]%string).

(** A URL constructor that accepts every string as it is. *)
Definition URL_any (s : string) : result URL := Ok {| href := s |}.

Definition no_param : Request.t :=
  Request.mk [("q", "x")]%string "GET" [] "".

Definition with_param : Request.t :=
  Request.mk [("u", "http://example.com/a")]%string "GET" [] "".

End Sample.

(** *** Notions for the further properties *)

(** The value the iteration [h] of a [Headers] object gives last under
    the name [k]. *)
Fixpoint header_value (k : string) (h : Headers) : option string :=
  match h with
  | [] => None
  | (k', v) :: h' =>
      match header_value k h' with
      | Some x => Some x
      | None => if String.eqb k' k then Some v else None
      end
  end.

(** The members of an object, when the value is one. *)
Definition members_of (v : json) : list (string * json) :=
  match v with
  | JObj ms => ms
  | _ => []
  end.

(** A lower-case hexadecimal digit. *)
Definition is_hex (c : ascii) : bool :=
  (((48 <=? code c) && (code c <=? 57)) || ((97 <=? code c) && (code c <=? 102)))%N.

(** A path segment that [path.join] keeps as it is: not empty, not [.]
    or [..], and with no separator in it. *)
Definition plain_segment (s : string) : Prop :=
  s <> ""%string /\ s <> "."%string /\ s <> ".."%string
  /\ existsb (Ascii.eqb "/"%char) (chars s) = false.

(** The same of a text: a segment that [path.normalize] keeps. *)
Definition plain (t : text) : Prop :=
  t <> [] /\ t <> chars "." /\ t <> chars ".."
  /\ existsb (Ascii.eqb "/"%char) t = false.

(** A host that names a directory of its own under the cache root:
    neither missing nor one of the segments [.] and [..]. *)
Definition named (h : string) : Prop :=
  h <> ""%string /\ h <> "."%string /\ h <> ".."%string.


(** A request event without a target: the parameter [u] is missing or
    empty, so that [!reqURL] holds. *)
Definition no_target (request : Request.t) : Prop :=
  searchParams_get "u" (Request.searchParams request) = None
  \/ searchParams_get "u" (Request.searchParams request) = Some ""%string.


(** Further sample data. *)
Module Scenario.

(** A request to another host than [Sample.req_a]. *)
Definition req_c : RequestInfo.t :=
  RequestInfo.mk {| href := "https://api.example.org:8443/v1/items?page=2" |} "GET" [] "".

(** A request whose URL has no host. *)
Definition req_mail : RequestInfo.t :=
  RequestInfo.mk {| href := "mailto:someone@example.com" |} "GET" [] "".

(** A request whose URL has the host [..]. *)
Definition req_up : RequestInfo.t :=
  RequestInfo.mk {| href := "http://../x" |} "GET" [] "".

(** A world with no file, where every write fails and nothing else
    does. *)
Definition write_protected : World :=
  {| files := ∅;
     faults := fun op _ => match op with OpWrite => Some DiskError | _ => None end;
     now := 1700000000000;
     origin := fun _ _ => Ok Sample.hello |}.


(** A URL constructor that rejects every string. *)
Definition URL_none (s : string) : result URL := Err TypeError.

End Scenario.

(** * Properties *)

(** ** JSON: what is printed is read back *)
Lemma json_ind (P : json -> Prop) :
  P JNull -> (forall b, P (JBool b)) -> (forall m e, P (JNum m e)) ->
  (forall s, P (JStr s)) ->
  (forall items, Forall P items -> P (JArr items)) ->
  (forall members, Forall (fun kv => P (snd kv)) members -> P (JObj members)) ->
  forall v, P v.
Proof.
  intros HN HB HZ HS HA HO.
  fix IH 1. intros [ | b | m e | s | items | members ].
  - exact HN.
  - apply HB.
  - apply HZ.
  - apply HS.
  - apply HA.
    exact ((fix go (l : list json) : Forall P l :=
              match l with
              | [] => List.Forall_nil P
              | x :: l' => List.Forall_cons P x l' (IH x) (go l')
              end) items).
  - apply HO.
    exact ((fix go (l : list (string * json)) : Forall (fun kv => P (snd kv)) l :=
              match l with
              | [] => List.Forall_nil _
              | kv :: l' => List.Forall_cons _ kv l' (IH (snd kv)) (go l')
              end) members).
Qed.

Lemma read_digits_stop r :
  match r with c :: _ => is_digit c = false | [] => True end ->
  read_digits r = (Decimal.Nil, r).
Proof.
  destruct r as [ | c r ]; [ reflexivity | ].
  unfold is_digit. simpl. destruct (digit_of c); [ discriminate | reflexivity ].
Qed.

Lemma read_digits_chars u r :
  match r with c :: _ => is_digit c = false | [] => True end ->
  read_digits (uint_chars u ++ r) = (u, r).
Proof.
  intros Hr. induction u; simpl; try (rewrite IHu; reflexivity).
  apply read_digits_stop, Hr.
Qed.

Lemma stops_digit r :
  stops r = true -> match r with c :: _ => is_digit c = false | [] => True end.
Proof.
  destruct r as [ | c r ]; [ trivial | ]. simpl.
  destruct (is_digit c); [ discriminate | reflexivity ].
Qed.

Lemma uint_chars_nonempty u : u <> Decimal.Nil -> uint_chars u <> [].
Proof. destruct u; simpl; congruence. Qed.

Lemma to_uint_normal n : Decimal.unorm (N.to_uint n) = N.to_uint n.
Proof. rewrite <- (DecimalN.Unsigned.of_to n) at 2. symmetry. apply DecimalN.Unsigned.to_of. Qed.

Lemma to_uint_not_nil n : N.to_uint n <> Decimal.Nil.
Proof. rewrite <- to_uint_normal. apply unorm_nonnil. Qed.

Lemma expect_digits c u r :
  is_digit c = false -> u <> Decimal.Nil -> expect c (uint_chars u ++ r) = None.
Proof.
  intros Hc Hu. destruct u; try congruence; cbn [uint_chars app expect];
    match goal with
    | |- context [Ascii.eqb ?d c] =>
        destruct (Ascii.eqb_spec d c) as [ <- | _ ]; [ discriminate Hc | reflexivity ]
    end.
Qed.

Lemma parse_sign_Z_chars z r :
  parse_sign (Z_chars z ++ r)
  = ((z <? 0)%Z, uint_chars (N.to_uint (Z.abs_N z)) ++ r).
Proof.
  unfold Z_chars, parse_sign. destruct (z <? 0)%Z; [ reflexivity | ].
  simpl app. rewrite expect_digits; [ reflexivity | reflexivity | apply to_uint_not_nil ].
Qed.

Lemma signed_abs z : signed (z <? 0)%Z (N.to_uint (Z.abs_N z)) = z.
Proof.
  unfold signed. rewrite DecimalN.Unsigned.of_to, N2Z.inj_abs_N.
  destruct (Z.ltb_spec z 0); lia.
Qed.

Lemma expect_plus_Z_chars z r : expect "+"%char (Z_chars z ++ r) = None.
Proof.
  unfold Z_chars. destruct (z <? 0)%Z; [ reflexivity | ].
  apply expect_digits; [ reflexivity | apply to_uint_not_nil ].
Qed.

Lemma parse_exp_stop r : stops r = true -> parse_exp r = Some (0%Z, r).
Proof.
  destruct r as [ | c r ]; [ reflexivity | ]. simpl. intros H.
  destruct (Ascii.eqb c "e"), (Ascii.eqb c "E"); simpl in *;
    rewrite ?orb_true_r in H; try discriminate; reflexivity.
Qed.

Lemma parse_frac_stop r : stops r = true -> parse_frac r = Some (Decimal.Nil, r).
Proof.
  destruct r as [ | c r ]; [ reflexivity | ]. unfold parse_frac. simpl. intros H.
  destruct (Ascii.eqb c "."); [ | reflexivity ].
  rewrite orb_true_r in H. discriminate.
Qed.

Lemma parse_exp_chars e r :
  stops r = true -> e <> 0%Z ->
  parse_exp ("e"%char :: Z_chars e ++ r) = Some (e, r).
Proof.
  intros Hr He. unfold parse_exp. simpl orb. cbv iota.
  rewrite expect_plus_Z_chars, parse_sign_Z_chars.
  rewrite read_digits_chars by (apply stops_digit, Hr).
  pose proof (to_uint_not_nil (Z.abs_N e)) as Hn.
  rewrite signed_abs. destruct (N.to_uint (Z.abs_N e)); congruence.
Qed.

Lemma uint_beq_refl u : Decimal.uint_beq u u = true.
Proof. apply Decimal.internal_uint_dec_lb. reflexivity. Qed.

Lemma parse_number_chars m e r :
  stops r = true -> parse_number (num_chars m e ++ r) = Some (JNum m e, r).
Proof.
  intros Hr. unfold parse_number, num_chars.
  rewrite <- app_assoc, parse_sign_Z_chars.
  destruct (Z.eqb_spec e 0) as [ -> | He ].
  - simpl app. rewrite read_digits_chars by (apply stops_digit, Hr).
    rewrite to_uint_normal, uint_beq_refl.
    rewrite parse_frac_stop, parse_exp_stop by assumption.
    rewrite DecimalFacts.app_nil_r, signed_abs. reflexivity.
  - rewrite read_digits_chars by reflexivity.
    rewrite to_uint_normal, uint_beq_refl.
    change (parse_frac (("e"%char :: Z_chars e) ++ r))
      with (Some (Decimal.Nil, "e"%char :: Z_chars e ++ r)).
    cbv beta iota. rewrite parse_exp_chars by assumption.
    rewrite DecimalFacts.app_nil_r, signed_abs. simpl. rewrite Z.sub_0_r. reflexivity.
Qed.

Lemma parse_chars_quote_char c tail acc :
  parse_chars (quote_char c ++ tail) None acc = parse_chars tail None (c :: acc).
Proof. destruct c as [[] [] [] [] [] [] [] []]; reflexivity. Qed.

Lemma parse_chars_quoted l tail acc :
  parse_chars (flat_map quote_char l ++ c_quote :: tail) None acc
  = Some (string_of_list_ascii (rev acc ++ l), tail).
Proof.
  revert acc. induction l as [ | c l IH ]; intros acc.
  - simpl. rewrite app_nil_r. reflexivity.
  - simpl flat_map. rewrite <- app_assoc, parse_chars_quote_char, IH.
    simpl. rewrite <- app_assoc. reflexivity.
Qed.

Lemma parse_chars_quote s tail :
  parse_chars (flat_map quote_char (chars s) ++ c_quote :: tail) None [] = Some (s, tail).
Proof.
  rewrite parse_chars_quoted. simpl. unfold chars.
  rewrite string_of_list_ascii_of_string. reflexivity.
Qed.

Lemma skip_ws_spaces n s : skip_ws (repeat c_space n ++ s) = skip_ws s.
Proof. induction n as [ | n IH ]; [ reflexivity | exact IH ]. Qed.

Lemma skip_ws_newline gap ind s : skip_ws (newline gap ind ++ s) = skip_ws s.
Proof.
  unfold newline. destruct gap; [ | reflexivity ].
  change (skip_ws (repeat c_space (2 * ind) ++ s) = skip_ws s). apply skip_ws_spaces.
Qed.

Lemma starts_value_skip s : starts_value s = true -> skip_ws s = s.
Proof.
  destruct s as [ | c s ]; [ reflexivity | ]. simpl.
  destruct (is_ws c); [ discriminate | reflexivity ].
Qed.

Lemma starts_value_expect s :
  starts_value s = true -> expect "]"%char s = None /\ expect "}"%char s = None.
Proof.
  destruct s as [ | c s ]; [ discriminate | ]. simpl.
  destruct (is_ws c), (Ascii.eqb c "]"), (Ascii.eqb c "}"); simpl; try discriminate; auto.
Qed.

Lemma uint_chars_head u r :
  u <> Decimal.Nil -> exists c r', uint_chars u ++ r = c :: r' /\ is_digit c = true.
Proof. destruct u; try congruence; intros _; simpl; eauto. Qed.

Lemma num_chars_head m e r :
  exists c r', num_chars m e ++ r = c :: r' /\ is_num_head c = true.
Proof.
  unfold num_chars, Z_chars. destruct (m <? 0)%Z.
  - simpl. eauto.
  - simpl app. rewrite <- app_assoc.
    match goal with
    | |- context [uint_chars ?u ++ ?t] =>
        destruct (uint_chars_head u t (to_uint_not_nil _)) as (c & r' & -> & Hc)
    end.
    exists c, r'. split; [ reflexivity | ]. unfold is_num_head. rewrite Hc. apply orb_true_r.
Qed.

Lemma num_head_facts c :
  is_num_head c = true ->
  is_ws c = false /\ Ascii.eqb c "]"%char = false /\ Ascii.eqb c "}"%char = false
  /\ Ascii.eqb c "{"%char = false /\ Ascii.eqb c "["%char = false
  /\ forall r, parse_atom c r = parse_number (c :: r).
Proof.
  destruct c as [[] [] [] [] [] [] [] []]; intros H; try discriminate H;
    repeat split; reflexivity.
Qed.

Lemma ser_starts gap ind v rest : starts_value (ser gap ind v ++ rest) = true.
Proof.
  destruct v as [ | [] | m e | s | items | members ]; try reflexivity.
  - destruct (num_chars_head m e rest) as (c & r' & E & Hc). simpl. rewrite E.
    destruct (num_head_facts c Hc) as (H1 & H2 & H3 & _). simpl. rewrite H1, H2, H3. reflexivity.
  - simpl. destruct (map _ items); reflexivity.
  - simpl. destruct (map _ members); reflexivity.
Qed.

Lemma stops_newline_close gap ind cls rest :
  cls = "]"%char \/ cls = "}"%char -> stops (newline gap ind ++ cls :: rest) = true.
Proof. intros [ -> | -> ]; destruct gap; reflexivity. Qed.

Lemma parse_value_S f s :
  parse_value (S f) s = value_body (parse_members f) (parse_items f) s.
Proof. reflexivity. Qed.

Lemma parse_items_S f s :
  parse_items (S f) s = items_body (parse_value f) (parse_items f) s.
Proof. reflexivity. Qed.

Lemma parse_members_S f s :
  parse_members (S f) s = members_body (parse_value f) (parse_members f) s.
Proof. reflexivity. Qed.

Section ReadBack.

Variable gap : bool.

Lemma parse_value_ws fuel ind s :
  parse_value fuel (newline gap ind ++ s) = parse_value fuel s.
Proof.
  destruct fuel; [ reflexivity | ]. rewrite !parse_value_S. unfold value_body.
  rewrite skip_ws_newline. reflexivity.
Qed.

Lemma parse_value_colon fuel s :
  parse_value fuel (tl (colon gap) ++ s) = parse_value fuel s.
Proof. destruct gap; [ | reflexivity ]. destruct fuel; reflexivity. Qed.

Lemma separated_cons ind (q : text) (qs : list text) tail :
  flat_map (fun q => ","%char :: newline gap (S ind) ++ q) (q :: qs) ++ tail
  = ","%char :: newline gap (S ind) ++ q
      ++ flat_map (fun q => ","%char :: newline gap (S ind) ++ q) qs ++ tail.
Proof. simpl. rewrite <- !app_assoc. reflexivity. Qed.

Lemma parse_items_ser ind rest items :
  Forall (reads_back gap) items ->
  forall x fuel, reads_back gap x -> need_list (map need (x :: items)) <= fuel ->
  parse_items fuel
    (newline gap (S ind) ++ ser gap (S ind) x
     ++ flat_map (fun q => ","%char :: newline gap (S ind) ++ q)
          (map (ser gap (S ind)) items)
     ++ newline gap ind ++ "]"%char :: rest)
  = Some (x :: items, rest).
Proof.
  induction 1 as [ | y items Hy _ IH ]; intros x fuel Hx Hfuel.
  - destruct fuel as [ | f ]; [ simpl in Hfuel; lia | ].
    simpl in Hfuel. rewrite parse_items_S. unfold items_body.
    rewrite parse_value_ws, Hx; [ | lia | apply stops_newline_close; auto ].
    simpl flat_map. simpl app. rewrite skip_ws_newline. reflexivity.
  - destruct fuel as [ | f ]; [ simpl in Hfuel; lia | ].
    simpl in Hfuel. rewrite parse_items_S. unfold items_body.
    rewrite parse_value_ws, Hx; [ | lia | reflexivity ].
    rewrite map_cons, separated_cons.
    simpl skip_ws. cbv iota. simpl Ascii.eqb. cbv iota.
    rewrite (IH y f Hy) by (simpl; lia). reflexivity.
Qed.


Lemma expect_colon s :
  expect ":"%char (skip_ws (colon gap ++ s)) = Some (tl (colon gap) ++ s).
Proof. destruct gap; reflexivity. Qed.

Lemma members_body_ser ind value members k v tail :
  members_body value members (newline gap (S ind) ++ member_text gap ind (k, v) ++ tail)
  = match value (tl (colon gap) ++ ser gap (S ind) v ++ tail) with
    | Some (v', r3) =>
        match skip_ws r3 with
        | c :: r4 =>
            if Ascii.eqb c ","%char then
              match members r4 with
              | Some (ms, r5) => Some ((k, v') :: ms, r5)
              | None => None
              end
            else if Ascii.eqb c "}"%char then Some ([(k, v')], r4)
            else None
        | [] => None
        end
    | None => None
    end.
Proof.
  unfold members_body, member_text, quote. rewrite skip_ws_newline.
  simpl fst. simpl snd. simpl app. simpl skip_ws. simpl expect. cbv iota.
  rewrite <- !app_assoc. simpl app.
  rewrite parse_chars_quote, expect_colon. reflexivity.
Qed.

Opaque member_text.

Lemma parse_members_ser ind rest members :
  Forall (fun kv => reads_back gap (snd kv)) members ->
  forall x fuel, reads_back gap (snd x) ->
  need_list (map (fun kv => need (snd kv)) (x :: members)) <= fuel ->
  parse_members fuel
    (newline gap (S ind) ++ member_text gap ind x
     ++ flat_map (fun q => ","%char :: newline gap (S ind) ++ q)
          (map (member_text gap ind) members)
     ++ newline gap ind ++ "}"%char :: rest)
  = Some (x :: members, rest).
Proof.
  induction 1 as [ | y members Hy _ IH ]; intros [k v] fuel Hx Hfuel;
    (destruct fuel as [ | f ]; [ simpl in Hfuel; lia | ]);
    simpl in Hfuel, Hx; rewrite parse_members_S, members_body_ser, parse_value_colon.
  - rewrite Hx; [ | lia | apply stops_newline_close; auto ].
    simpl flat_map. simpl app. rewrite skip_ws_newline. reflexivity.
  - rewrite map_cons, separated_cons.
    rewrite Hx; [ | lia | reflexivity ].
    simpl skip_ws. cbv iota. simpl Ascii.eqb. cbv iota.
    rewrite (IH y f Hy) by (simpl; lia). reflexivity.
Qed.

Lemma value_body_array members items ind p ps rest :
  (forall tail, starts_value (p ++ tail) = true) ->
  value_body members items (wrap gap ind "["%char "]"%char (p :: ps) ++ rest)
  = match
      items (newline gap (S ind) ++ p
             ++ flat_map (fun q => ","%char :: newline gap (S ind) ++ q) ps
             ++ newline gap ind ++ "]"%char :: rest)
    with
    | Some (vs, r') => Some (JArr vs, r')
    | None => None
    end.
Proof.
  intros Hp. unfold value_body, wrap.
  rewrite <- app_comm_cons, <- !app_assoc.
  change (skip_ws ("["%char :: ?t)) with ("["%char :: t).
  cbv iota. change (Ascii.eqb "[" "{") with false. change (Ascii.eqb "[" "[") with true.
  cbv iota. rewrite skip_ws_newline, starts_value_skip by apply Hp.
  rewrite (proj1 (starts_value_expect _ (Hp _))). reflexivity.
Qed.

Lemma value_body_object members items ind p ps rest :
  (forall tail, starts_value (p ++ tail) = true) ->
  value_body members items (wrap gap ind "{"%char "}"%char (p :: ps) ++ rest)
  = match
      members (newline gap (S ind) ++ p
               ++ flat_map (fun q => ","%char :: newline gap (S ind) ++ q) ps
               ++ newline gap ind ++ "}"%char :: rest)
    with
    | Some (ms, r') => Some (JObj ms, r')
    | None => None
    end.
Proof.
  intros Hp. unfold value_body, wrap.
  rewrite <- app_comm_cons, <- !app_assoc.
  change (skip_ws ("{"%char :: ?t)) with ("{"%char :: t).
  cbv iota. change (Ascii.eqb "{" "{") with true.
  cbv iota. rewrite skip_ws_newline, starts_value_skip by apply Hp.
  rewrite (proj2 (starts_value_expect _ (Hp _))). reflexivity.
Qed.

Transparent member_text.

Lemma member_text_starts ind kv tail : starts_value (member_text gap ind kv ++ tail) = true.
Proof. reflexivity. Qed.

Lemma ser_array ind items :
  ser gap ind (JArr items) = wrap gap ind "["%char "]"%char (map (ser gap (S ind)) items).
Proof. reflexivity. Qed.

Lemma ser_object ind members :
  ser gap ind (JObj members)
  = wrap gap ind "{"%char "}"%char (map (member_text gap ind) members).
Proof. reflexivity. Qed.

Theorem parse_value_ser v : reads_back gap v.
Proof.
  induction v as [ | b | m e | s | items IH | members IH ] using json_ind;
    intros ind fuel rest Hfuel Hrest;
    (destruct fuel as [ | f ]; [ simpl in Hfuel; lia | ]);
    rewrite parse_value_S.
  - reflexivity.
  - destruct b; reflexivity.
  - simpl ser. unfold value_body.
    destruct (num_chars_head m e rest) as (c & r' & E & Hc).
    destruct (num_head_facts c Hc) as (H1 & _ & _ & H2 & H3 & H4).
    rewrite E. simpl skip_ws. rewrite H1, H2, H3, H4, <- E.
    apply parse_number_chars, Hrest.
  - simpl ser. unfold value_body, quote.
    rewrite <- app_comm_cons, <- app_assoc.
    change (skip_ws (c_quote :: ?t)) with (c_quote :: t). cbv iota.
    change (Ascii.eqb c_quote "{") with false. change (Ascii.eqb c_quote "[") with false.
    cbv iota. unfold parse_atom. change (Ascii.eqb c_quote c_quote) with true. cbv iota.
    simpl app. rewrite parse_chars_quote. reflexivity.
  - rewrite ser_array. destruct items as [ | x items ]; [ reflexivity | ].
    rewrite map_cons, value_body_array by (intros; apply ser_starts).
    inversion IH as [ | ? ? Hx Hitems ]; subst.
    simpl in Hfuel.
    rewrite (parse_items_ser ind rest items Hitems x f Hx) by (simpl; lia).
    reflexivity.
  - rewrite ser_object. destruct members as [ | x members ]; [ reflexivity | ].
    rewrite map_cons, value_body_object by (intros; apply member_text_starts).
    inversion IH as [ | ? ? Hx Hmembers ]; subst.
    simpl in Hfuel.
    rewrite (parse_members_ser ind rest members Hmembers x f Hx) by (simpl; lia).
    reflexivity.
Qed.

End ReadBack.

Lemma need_list_le {A} (f : A -> nat) (g : A -> text) (prefix : text) (l : list A) :
  Forall (fun x => f x <= length (g x)) l ->
  need_list (map f l)
  <= length (flat_map (fun q => ","%char :: prefix ++ q) (map g l)).
Proof.
  induction 1 as [ | x l Hx _ IH ]; simpl; [ lia | ].
  rewrite !length_app. lia.
Qed.

Lemma wrap_length gap ind opn cls p ps :
  length (flat_map (fun q => ","%char :: newline gap (S ind) ++ q) (p :: ps))
  < length (wrap gap ind opn cls (p :: ps)).
Proof. simpl. repeat (rewrite length_app; simpl). lia. Qed.

Lemma need_le_length gap v : forall ind, 0 < need v <= length (ser gap ind v).
Proof.
  induction v as [ | b | m e | s | items IH | members IH ] using json_ind; intros ind.
  - simpl. lia.
  - destruct b; simpl; lia.
  - destruct (num_chars_head m e []) as (c & r' & E & _).
    simpl. rewrite app_nil_r in E. rewrite E. simpl. lia.
  - simpl. lia.
  - rewrite ser_array. simpl need. destruct items as [ | x items ]; [ simpl; lia | ].
    pose proof (wrap_length gap ind "[" "]" (ser gap (S ind) x) (map (ser gap (S ind)) items)).
    pose proof (need_list_le need (ser gap (S ind)) (newline gap (S ind)) (x :: items)) as L.
    assert (Forall (fun x => need x <= length (ser gap (S ind) x)) (x :: items)) as F.
    { eapply Forall_impl; [ exact IH | ]. intros a Ha. apply Ha. }
    specialize (L F). rewrite !map_cons in L |- *. unfold text in *. lia.
  - rewrite ser_object. simpl need. destruct members as [ | x members ]; [ simpl; lia | ].
    pose proof (wrap_length gap ind "{" "}" (member_text gap ind x)
                  (map (member_text gap ind) members)).
    pose proof (need_list_le (fun kv => need (snd kv)) (member_text gap ind)
                  (newline gap (S ind)) (x :: members)) as L.
    assert (Forall (fun kv => need (snd kv) <= length (member_text gap ind kv)) (x :: members)) as F.
    { eapply Forall_impl; [ exact IH | ]. intros a Ha. simpl in Ha.
      unfold member_text. rewrite !length_app. specialize (Ha (S ind)). lia. }
    specialize (L F). rewrite !map_cons in L |- *. unfold text in *. lia.
Qed.

(** [JSON.parse] reads back what [JSON.stringify] printed. *)
Theorem JSON_parse_stringify gap v : JSON_parse (JSON_stringify gap v) = Some v.
Proof.
  unfold JSON_parse, JSON_stringify, chars.
  rewrite list_ascii_of_string_of_list_ascii.
  pose proof (parse_value_ser gap v 0 (S (2 * length (ser gap 0 v))) []) as E.
  rewrite app_nil_r in E. rewrite E; [ reflexivity | | reflexivity ].
  pose proof (need_le_length gap v 0). lia.
Qed.

Lemma JSON_stringify_inj gap v1 v2 :
  JSON_stringify gap v1 = JSON_stringify gap v2 -> v1 = v2.
Proof.
  intros E. apply (f_equal JSON_parse) in E.
  rewrite !JSON_parse_stringify in E. congruence.
Qed.

(** ** The models: fingerprint and response descriptor *)

Lemma payload_members this :
  RequestInfo.payload this
  = JObj [("url", JStr (href (RequestInfo.url this)));
          ("method", JStr (RequestInfo.method this));
          ("headers", JObj []);
          ("body", JStr (RequestInfo.body this))]%string.
Proof. reflexivity. Qed.

(** C3. The fingerprint depends on the URL, the method and the body of a
    request only: two requests that agree on the three have the same
    hash, whatever their headers are. *)
Theorem hash_ignores_headers (r1 r2 : RequestInfo.t) :
  RequestInfo.url r1 = RequestInfo.url r2 ->
  RequestInfo.method r1 = RequestInfo.method r2 ->
  RequestInfo.body r1 = RequestInfo.body r2 ->
  RequestInfo.hash r1 = RequestInfo.hash r2.
Proof.
  intros Hurl Hmethod Hbody. unfold RequestInfo.hash.
  rewrite !payload_members, Hurl, Hmethod, Hbody. reflexivity.
Qed.

Lemma hash_ignores_headers_witness :
  RequestInfo.headers Sample.req_a <> RequestInfo.headers Sample.req_b
  /\ RequestInfo.hash Sample.req_a = RequestInfo.hash Sample.req_b.
Proof.
  split; [ discriminate | ].
  apply (hash_ignores_headers Sample.req_a Sample.req_b); reflexivity.
Defined.

Lemma strict_eq_Z_integer (n k : Z) : strict_eq_Z (Some (JNum n 0)) k = (n =? k)%Z.
Proof. unfold strict_eq_Z. simpl. rewrite Z.mul_1_r. reflexivity. Qed.

(** C6. The descriptor built from a transport response keeps the body
    text when the status is 200 and an empty body otherwise, and it is
    successful exactly when the status is 200. *)
Theorem fromResponse_captures_body_on_200 (res : Response.t) :
  ResponseInfo.data (ResponseInfo.fromResponse res)
  = Some (JStr (if (Response.status res =? 200)%Z then Response.text res else ""))
  /\ ResponseInfo.status (ResponseInfo.fromResponse res)
     = Some (JNum (Response.status res) 0)
  /\ ResponseInfo.isSuccessful (ResponseInfo.fromResponse res)
     = (Response.status res =? 200)%Z.
Proof.
  unfold ResponseInfo.isSuccessful, ResponseInfo.fromResponse. simpl.
  rewrite Z.mul_1_r. auto.
Qed.

Lemma fromJSON_defined (j : json) :
  j <> JNull ->
  ResponseInfo.fromJSON (Some j)
  = Ok (ResponseInfo.mk (prop j "status") (prop j "headers") (prop j "data")).
Proof. destruct j; intros H; try reflexivity. congruence. Qed.

Lemma fromJSON_null_or_undefined (j : jsval) :
  j = undefined \/ j = Some JNull -> ResponseInfo.fromJSON j = Err Deserialize.
Proof. intros [ -> | -> ]; reflexivity. Qed.

Lemma toJSON_fields (res : ResponseInfo.t) :
  ResponseInfo.mk (prop (ResponseInfo.toJSON res) "status")
    (prop (ResponseInfo.toJSON res) "headers") (prop (ResponseInfo.toJSON res) "data")
  = res.
Proof. destruct res as [[s | ] [h | ] [d | ]]; reflexivity. Qed.

Lemma entry_response_item date req res :
  entry_response (Cache.item date req res) = Some res.
Proof.
  unfold entry_response.
  change (prop (Cache.item date req res) "res") with (Some (ResponseInfo.toJSON res)).
  transitivity
    (Some (ResponseInfo.mk (prop (ResponseInfo.toJSON res) "status")
             (prop (ResponseInfo.toJSON res) "headers")
             (prop (ResponseInfo.toJSON res) "data"))).
  - reflexivity.
  - rewrite toJSON_fields. reflexivity.
Qed.

(** ** The cache *)

Lemma with_files_id w : with_files w (files w) = w.
Proof. destruct w; reflexivity. Qed.

Lemma set_unsuccessful req res w :
  ResponseInfo.isSuccessful res = false ->
  Cache.set req res w = {| value := Ok tt; world := w; trace := [Log skip_line] |}.
Proof. intros H. unfold Cache.set. rewrite H. reflexivity. Qed.

Lemma set_successful req res w :
  ResponseInfo.isSuccessful res = true ->
  fault_free w (Cache.buildFilepath req) ->
  Cache.set req res w
  = {| value := Ok tt;
       world :=
         with_files w
           (<[Cache.buildFilepath req :=
                JSON_stringify true (Cache.item (now w) req res)]> (files w));
       trace := [Log ("Cached " +:+ Cache.buildFilepath req)] |}.
Proof.
  intros H F. unfold Cache.set. rewrite H. simpl.
  unfold bind, ensureFile, Deno_writeTextFile, Date_now, console_log, ret.
  rewrite (F OpStat).
  destruct (files w !! Cache.buildFilepath req) eqn:E; simpl.
  - rewrite (F OpWrite). reflexivity.
  - rewrite (F OpCreate). simpl. rewrite (F OpWrite). simpl.
    unfold with_files. simpl. rewrite insert_insert_eq. reflexivity.
Qed.

(** [set] touches no file but the one at the path of the request. *)
Lemma set_other_files req res w p :
  p <> Cache.buildFilepath req ->
  files (world (Cache.set req res w)) !! p = files w !! p.
Proof.
  intros Hp. unfold Cache.set.
  destruct (ResponseInfo.isSuccessful res); [ | reflexivity ]. simpl.
  unfold bind, ensureFile, Deno_writeTextFile, Date_now, console_log, ret, throw.
  destruct (faults w OpStat _); [ reflexivity | ].
  destruct (files w !! Cache.buildFilepath req) eqn:E; simpl.
  - destruct (faults w OpWrite _); simpl; [ reflexivity | ].
    rewrite lookup_insert_ne by congruence. reflexivity.
  - destruct (faults w OpCreate _); simpl; [ reflexivity | ].
    destruct (faults w OpWrite _); simpl;
      rewrite !lookup_insert_ne by congruence; reflexivity.
Qed.

(** What [get] does, case by case. *)
Lemma get_outcome req w :
  Cache.get req w
  = {| value :=
         match faults w OpRead (Cache.buildFilepath req) with
         | Some f => Err (IO f)
         | None =>
             match files w !! Cache.buildFilepath req with
             | None => Ok None
             | Some content =>
                 match JSON_parse content with
                 | None => Err SyntaxError
                 | Some JNull => Err TypeError
                 | Some v => Ok (entry_response v)
                 end
             end
         end;
       world := w;
       trace := [] |}.
Proof.
  unfold Cache.get, try_catch, bind, Deno_readTextFile, lift, ret, throw,
    Cache.JSON_parse_or_throw.
  destruct (faults w OpRead _); [ reflexivity | ].
  destruct (files w !! _); [ | reflexivity ]. simpl.
  destruct (JSON_parse s) as [ v | ]; [ | reflexivity ].
  destruct v as [ | b | m e | str | items | members ]; try reflexivity.
  simpl. unfold entry_response, prop.
  destruct (member "res" members) as [ r | ]; [ | reflexivity ].
  destruct r; reflexivity.
Qed.

(** C10. [get] is read-only: whatever it answers (a descriptor, absent or
    an error), the files, and the whole world, are after the call what
    they were before it, and nothing was emitted. *)
Theorem get_is_read_only req w :
  world (Cache.get req w) = w
  /\ files (world (Cache.get req w)) = files w
  /\ trace (Cache.get req w) = [].
Proof. rewrite get_outcome. repeat split. Qed.

Lemma set_preserves_entries req res w :
  successful_entries (files w) -> successful_entries (files (world (Cache.set req res w))).
Proof.
  intros Inv p content.
  destruct (decide (p = Cache.buildFilepath req)) as [ -> | Hp ];
    [ | rewrite set_other_files by exact Hp; apply Inv ].
  unfold Cache.set.
  destruct (ResponseInfo.isSuccessful res) eqn:Hres; [ | apply Inv ]. simpl.
  unfold bind, ensureFile, Deno_writeTextFile, Date_now, console_log, ret, throw.
  destruct (faults w OpStat _); [ apply Inv | ].
  destruct (files w !! Cache.buildFilepath req) eqn:E; simpl.
  - destruct (faults w OpWrite _); simpl; [ apply Inv | ].
    rewrite lookup_insert_eq. intros [= <-]. right. eauto.
  - destruct (faults w OpCreate _); simpl; [ apply Inv | ].
    destruct (faults w OpWrite _); simpl; rewrite ?lookup_insert_eq; intros [= <-];
      [ left; reflexivity | right; eauto ].
Qed.

(** C4. [set] with a response that is not successful writes nothing (the
    world is unchanged) and logs that it skipped; hence every record in
    the store comes from a successful response, an invariant that [set]
    preserves for every request and response. *)
Theorem set_skips_unsuccessful req res w :
  (ResponseInfo.isSuccessful res = false ->
   Cache.set req res w = {| value := Ok tt; world := w; trace := [Log skip_line] |})
  /\ (successful_entries (files w) ->
      successful_entries (files (world (Cache.set req res w)))).
Proof. split; [ apply set_unsuccessful | apply set_preserves_entries ]. Qed.

(** C5. [set] overwrites: after [set(req, res1)] and [set(req, res2)]
    with two successful responses, [get(req)] answers [res2] (its
    status, headers and data), always, where no I/O error hits the file
    of the request. *)
Theorem set_overwrites req res1 res2 w :
  ResponseInfo.isSuccessful res1 = true ->
  ResponseInfo.isSuccessful res2 = true ->
  fault_free w (Cache.buildFilepath req) ->
  value ((Cache.set req res1 ;;; Cache.set req res2 ;;; Cache.get req) w)
  = Ok (Some res2).
Proof.
  intros H1 H2 F. unfold bind.
  rewrite (set_successful req res1 w H1 F). simpl.
  rewrite (set_successful req res2) by (assumption || exact F). simpl.
  rewrite get_outcome. simpl. rewrite (F OpRead), lookup_insert_eq.
  rewrite JSON_parse_stringify. unfold Cache.item at 1.
  rewrite entry_response_item. reflexivity.
Qed.

Lemma payload_inj r1 r2 :
  JSON_stringify false (RequestInfo.payload r1)
  = JSON_stringify false (RequestInfo.payload r2) ->
  RequestInfo.url r1 = RequestInfo.url r2
  /\ RequestInfo.method r1 = RequestInfo.method r2
  /\ RequestInfo.body r1 = RequestInfo.body r2.
Proof.
  intros E. apply JSON_stringify_inj in E. rewrite !payload_members in E.
  injection E as Hu Hm Hb.
  destruct (RequestInfo.url r1), (RequestInfo.url r2). simpl in Hu. subst. auto.
Qed.

(** ** The decorator *)

Lemma set_trace_fetches req res w :
  fault_free w (Cache.buildFilepath req) ->
  value (Cache.set req res w) = Ok tt /\ fetches (trace (Cache.set req res w)) = 0.
Proof.
  intros F. destruct (ResponseInfo.isSuccessful res) eqn:H.
  - rewrite set_successful by assumption. auto.
  - rewrite set_unsuccessful by assumption. auto.
Qed.

Lemma CachableRequest_outcome method req w :
  CachableRequest method req w
  = match value (Cache.get req w) with
    | Ok (Some hit) => {| value := Ok hit; world := w; trace := [Log (hit_line req)] |}
    | Ok None =>
        let o := (fromFetch <- method req ;; Cache.set req fromFetch ;;; ret fromFetch) w in
        {| value := value o; world := world o; trace := Log (miss_line req) :: trace o |}
    | Err e => {| value := Err e; world := w; trace := [] |}
    end.
Proof.
  unfold CachableRequest. unfold bind at 1. rewrite get_outcome. simpl.
  destruct (match faults w OpRead _ with Some _ => _ | None => _ end) as [ [ hit | ] | e ];
    reflexivity.
Qed.

(** C1. [Fetcher.fetch], as decorated, is cache-aside.  When [get] finds
    a stored response, that response is returned and the origin is not
    fetched.  When [get] reports absent, the origin is fetched exactly
    once, the effects are those of [set] on the request and the fetched
    result, and that result is returned, successful or not.  (Where no
    I/O error hits the file of the request; an exception of [get] or of
    the origin fetch is the exception of the call.) *)
Theorem fetch_is_cache_aside req w :
  fault_free w (Cache.buildFilepath req) ->
  match value (Cache.get req w) with
  | Ok (Some hit) =>
      Fetcher.fetch req w
      = {| value := Ok hit; world := w; trace := [Log (hit_line req)] |}
      /\ fetches (trace (Fetcher.fetch req w)) = 0
  | Ok None =>
      fetches (trace (Fetcher.fetch req w)) = 1
      /\ match origin w (RequestInfo.url req) (RequestInfo.headers req) with
         | Ok answer =>
             let fromFetch := ResponseInfo.fromResponse answer in
             Fetcher.fetch req w
             = {| value := Ok fromFetch;
                  world := world (Cache.set req fromFetch w);
                  trace :=
                    Log (miss_line req)
                    :: Fetch (RequestInfo.url req) (RequestInfo.headers req)
                    :: trace (Cache.set req fromFetch w) |}
         | Err e =>
             Fetcher.fetch req w
             = {| value := Err e; world := w;
                  trace :=
                    [Log (miss_line req);
                     Fetch (RequestInfo.url req) (RequestInfo.headers req)] |}
         end
  | Err e => Fetcher.fetch req w = {| value := Err e; world := w; trace := [] |}
  end.
Proof.
  intros F. unfold Fetcher.fetch. rewrite CachableRequest_outcome.
  destruct (value (Cache.get req w)) as [ [ hit | ] | e ]; [ auto | | reflexivity ].
  unfold Fetcher.fetch_origin, bind, fetch, ret. simpl.
  destruct (origin w _ _) as [ answer | e ]; simpl; [ | auto ].
  destruct (set_trace_fetches req (ResponseInfo.fromResponse answer) w F) as [Hv Ht].
  rewrite Hv. simpl. rewrite !app_nil_r, Ht. auto.
Qed.

(** ** The server *)

(** C8. A request without the target-URL parameter [u] is answered with
    status 404 and an empty body; nothing else happens (no fetch, no
    change of the world), and the requests that follow on the connection
    are not served. *)
Theorem serveHttp_missing_parameter
  (URL_new : string -> result URL)
  (cachedFetcher_fetch : RequestInfo.t -> M ResponseInfo.t)
  (request : Request.t) (rest : list Request.t) (w : World) :
  searchParams_get "u" (Request.searchParams request) = None ->
  Server.serveHttp URL_new cachedFetcher_fetch (request :: rest) w
  = {| value := Ok tt; world := w; trace := [not_found_response] |}
  /\ fetches (trace (Server.serveHttp URL_new cachedFetcher_fetch
                       (request :: rest) w)) = 0.
Proof. intros H. simpl. rewrite H. split; reflexivity. Qed.

(** ** The cache on files that are not records *)

Lemma get_cached content :
  Cache.get Sample.req_a (Sample.cached content)
  = {| value :=
         match JSON_parse content with
         | None => Err SyntaxError
         | Some JNull => Err TypeError
         | Some v => Ok (entry_response v)
         end;
       world := Sample.cached content;
       trace := [] |}.
Proof.
  rewrite get_outcome. unfold Sample.cached, Sample.world_with.
  cbn [faults files]. rewrite lookup_singleton_eq. reflexivity.
Qed.

(** X6. [get] reports absent exactly when the read raises no error and
    the file is missing, or holds JSON other than [null] whose [res]
    member is missing or [null]. *)
Lemma get_absent_iff req w :
  value (Cache.get req w) = Ok None
  <-> faults w OpRead (Cache.buildFilepath req) = None
      /\ (files w !! Cache.buildFilepath req = None
          \/ exists content v,
               files w !! Cache.buildFilepath req = Some content
               /\ JSON_parse content = Some v
               /\ v <> JNull
               /\ entry_response v = None).
Proof.
  rewrite get_outcome. simpl.
  destruct (faults w OpRead _) as [ f | ]; [ split; [ discriminate | intros [? _]; discriminate ] | ].
  destruct (files w !! _) as [ content | ]; [ | split; auto ].
  destruct (JSON_parse content) as [ v | ] eqn:P.
  - split.
    + intros H. split; [ reflexivity | ]. right. exists content, v.
      destruct v; try discriminate H; repeat split; congruence.
    + intros (_ & [ ? | (c & v' & [= <-] & Hp & Hv & He) ]); [ discriminate | ].
      rewrite P in Hp. injection Hp as <-. destruct v; congruence.
  - split; [ discriminate | ].
    intros (_ & [ ? | (c & v' & [= <-] & Hp & _) ]); congruence.
Qed.

(** X7. The errors [get] raises, and when: an I/O error of the read
    other than "not found", the SyntaxError of a file that is not JSON,
    and the TypeError of a file that holds [null]; nothing else. *)
Lemma get_error_iff req w e :
  value (Cache.get req w) = Err e
  <-> (exists f, faults w OpRead (Cache.buildFilepath req) = Some f /\ e = IO f)
      \/ (faults w OpRead (Cache.buildFilepath req) = None
          /\ exists content,
               files w !! Cache.buildFilepath req = Some content
               /\ ((JSON_parse content = None /\ e = SyntaxError)
                   \/ (JSON_parse content = Some JNull /\ e = TypeError))).
Proof.
  rewrite get_outcome. simpl.
  destruct (faults w OpRead _) as [ f | ].
  - split.
    + intros [= <-]. left. eauto.
    + intros [ (f' & [= <-] & ->) | (? & _) ]; [ reflexivity | discriminate ].
  - destruct (files w !! _) as [ content | ].
    + destruct (JSON_parse content) as [ v | ] eqn:P.
      * split.
        -- intros H. right. split; [ reflexivity | ]. exists content.
           split; [ reflexivity | ]. right.
           destruct v; try discriminate H. injection H as <-. auto.
        -- intros [ (? & ? & _) | (_ & c & [= <-] & [ (Hp & _) | (Hp & ->) ]) ];
             [ discriminate | congruence | ].
           rewrite P in Hp. injection Hp as ->. reflexivity.
      * split.
        -- intros [= <-]. right. split; [ reflexivity | ]. exists content. auto.
        -- intros [ (? & ? & _) | (_ & c & [= <-] & [ (_ & ->) | (Hp & _) ]) ];
             [ discriminate | reflexivity | congruence ].
    + split; [ discriminate | ].
      intros [ (? & ? & _) | (_ & c & ? & _) ]; discriminate.
Qed.

(** C2. On a cache file that is not JSON, [get] does not report absent:
    the SyntaxError of [JSON.parse] is none of the two errors its handler
    turns into [undefined], and it is thrown again.  (An empty file, what
    [ensureFile] leaves when the write after it fails, is such a file.) *)
Theorem get_rethrows_syntax_error :
  JSON_parse "not json" = None
  /\ Cache.get Sample.req_a (Sample.cached "not json")
     = {| value := Err SyntaxError; world := Sample.cached "not json"; trace := [] |}
  /\ value (Cache.get Sample.req_a (Sample.cached "")) = Err SyntaxError.
Proof. rewrite !get_cached. repeat split. Qed.

(** C9, as stated, fails: a cache file holding well-formed JSON with no
    [res] member is reported absent, not served as a hit. *)
Lemma get_misses_record_without_res :
  JSON_parse "{}" = Some (JObj [])
  /\ value (Cache.get Sample.req_a (Sample.cached "{}")) = Ok None.
Proof. rewrite get_cached. split; reflexivity. Qed.

(** C9, amended. [fromJSON] validates nothing: on every value other than
    [null] and [undefined] it returns a descriptor made of whatever the
    value has under [status], [headers] and [data], and never raises
    [Deserialize].  So for a cache file that holds JSON other than
    [null], [get] answers a hit whenever the [res] member is present and
    not [null], whatever it holds, and absent when it is missing or
    [null]. *)
Theorem fromJSON_validates_nothing :
  (forall j : json,
     j <> JNull ->
     ResponseInfo.fromJSON (Some j)
     = Ok (ResponseInfo.mk (prop j "status") (prop j "headers") (prop j "data")))
  /\ (forall req w content v,
        faults w OpRead (Cache.buildFilepath req) = None ->
        files w !! Cache.buildFilepath req = Some content ->
        JSON_parse content = Some v ->
        v <> JNull ->
        value (Cache.get req w)
        = Ok match prop v "res" with
             | None => None
             | Some JNull => None
             | Some r =>
                 Some (ResponseInfo.mk (prop r "status") (prop r "headers") (prop r "data"))
             end).
Proof.
  split; [ exact fromJSON_defined | ].
  intros req w content v Hfault Hfile Hparse Hv.
  rewrite get_outcome. simpl. rewrite Hfault, Hfile, Hparse.
  destruct v; try reflexivity. congruence.
Qed.

Lemma fromJSON_validates_nothing_witness :
  ResponseInfo.fromJSON (Some (JNum 5 0))
  = Ok (ResponseInfo.mk undefined undefined undefined)
  /\ value (Cache.get Sample.req_a (Sample.cached Sample.empty_res))
     = Ok (Some (ResponseInfo.mk undefined undefined undefined)).
Proof.
  destruct fromJSON_validates_nothing as [Hfrom Hget]. split.
  - apply (Hfrom (JNum 5 0)). discriminate.
  - apply (Hget Sample.req_a (Sample.cached Sample.empty_res) Sample.empty_res
             (JObj [("res", JObj [])]%string)).
    + reflexivity.
    + apply lookup_singleton_eq.
    + apply JSON_parse_stringify.
    + discriminate.
Defined.

(** ** Sample runs *)

Lemma sample_fault_free fs answer p : fault_free (Sample.world_with fs answer) p.
Proof. intros op. reflexivity. Qed.

Lemma buildFilepath_congruence r1 r2 :
  RequestInfo.url r1 = RequestInfo.url r2 ->
  RequestInfo.method r1 = RequestInfo.method r2 ->
  RequestInfo.body r1 = RequestInfo.body r2 ->
  Cache.buildFilepath r1 = Cache.buildFilepath r2.
Proof.
  intros Hurl Hmethod Hbody. unfold Cache.buildFilepath, RequestInfo.hash.
  rewrite !payload_members, Hurl, Hmethod, Hbody. reflexivity.
Qed.

(** A first call misses, fetches the origin once and returns its answer;
    a second call, with other headers, is served from the cache. *)
Lemma fetch_is_cache_aside_witness :
  (value (Fetcher.fetch Sample.req_a (Sample.empty_world (Ok Sample.hello)))
   = Ok Sample.res_hello
   /\ fetches (trace (Fetcher.fetch Sample.req_a (Sample.empty_world (Ok Sample.hello)))) = 1)
  /\ (value (Fetcher.fetch Sample.req_b
               (world (Fetcher.fetch Sample.req_a (Sample.empty_world (Ok Sample.hello)))))
      = Ok Sample.res_hello
      /\ fetches (trace (Fetcher.fetch Sample.req_b
               (world (Fetcher.fetch Sample.req_a (Sample.empty_world (Ok Sample.hello))))))
         = 0).
Proof.
  pose proof (fetch_is_cache_aside Sample.req_a (Sample.empty_world (Ok Sample.hello))
                (sample_fault_free _ _ _)) as First.
  rewrite get_outcome in First. cbn [value faults files origin Sample.empty_world
    Sample.world_with] in First. rewrite lookup_empty in First.
  destruct First as [Once First]. cbv zeta in First.
  split; [ rewrite First; split; [ reflexivity | exact Once ] | ].
  rewrite First. cbn [world].
  rewrite set_successful by (reflexivity || apply sample_fault_free). cbn [world].
  set (w1 := with_files _ _).
  assert (F1 : fault_free w1 (Cache.buildFilepath Sample.req_b))
    by (intros op; reflexivity).
  pose proof (fetch_is_cache_aside Sample.req_b w1 F1) as Second.
  assert (Stored : value (Cache.get Sample.req_b w1) = Ok (Some Sample.res_hello)).
  { rewrite get_outcome.
    rewrite (buildFilepath_congruence Sample.req_b Sample.req_a) by reflexivity.
    subst w1. cbn [value faults files with_files Sample.empty_world Sample.world_with].
    rewrite lookup_insert_eq, JSON_parse_stringify.
    unfold Cache.item at 1. rewrite entry_response_item. reflexivity. }
  rewrite Stored in Second. destruct Second as [Hit Zero].
  rewrite Hit. split; [ reflexivity | exact Zero ].
Defined.

Lemma set_skips_unsuccessful_witness :
  Cache.set Sample.req_a (ResponseInfo.fromResponse Sample.failure)
    (Sample.empty_world (Ok Sample.failure))
  = {| value := Ok tt; world := Sample.empty_world (Ok Sample.failure);
       trace := [Log skip_line] |}
  /\ successful_entries
       (files (world (Cache.set Sample.req_a (ResponseInfo.fromResponse Sample.hello)
                        (Sample.empty_world (Ok Sample.hello))))).
Proof.
  split.
  - apply (set_skips_unsuccessful Sample.req_a (ResponseInfo.fromResponse Sample.failure)).
    reflexivity.
  - apply (set_skips_unsuccessful Sample.req_a (ResponseInfo.fromResponse Sample.hello)).
    intros p content. cbn [files Sample.empty_world Sample.world_with].
    rewrite lookup_empty. discriminate.
Defined.

Lemma set_overwrites_witness :
  ResponseInfo.isSuccessful Sample.res_hello = true
  /\ ResponseInfo.isSuccessful Sample.res_other = true
  /\ Sample.res_hello <> Sample.res_other
  /\ value ((Cache.set Sample.req_a Sample.res_hello ;;;
             Cache.set Sample.req_a Sample.res_other ;;;
             Cache.get Sample.req_a) (Sample.empty_world (Ok Sample.hello)))
     = Ok (Some Sample.res_other).
Proof.
  split; [ reflexivity | ]. split; [ reflexivity | ]. split; [ discriminate | ].
  apply (set_overwrites Sample.req_a Sample.res_hello Sample.res_other);
    [ reflexivity | reflexivity | apply sample_fault_free ].
Defined.

Lemma serveHttp_missing_parameter_witness :
  searchParams_get "u" (Request.searchParams Sample.no_param) = None
  /\ Server.serveHttp Sample.URL_any Fetcher.fetch [Sample.no_param; Sample.with_param]
       (Sample.empty_world (Ok Sample.hello))
     = {| value := Ok tt; world := Sample.empty_world (Ok Sample.hello);
          trace := [not_found_response] |}.
Proof.
  split; [ reflexivity | ].
  apply (serveHttp_missing_parameter Sample.URL_any Fetcher.fetch Sample.no_param
           [Sample.with_param] (Sample.empty_world (Ok Sample.hello))).
  reflexivity.
Defined.

(** ** Serialization of the models *)

Lemma member_absent k ms : ~ In k (map fst ms) -> member k ms = undefined.
Proof.
  induction ms as [ | [k' v] ms IH ]; [ reflexivity | ].
  simpl. intros H. rewrite IH by tauto.
  destruct (String.eqb_spec k' k); [ tauto | reflexivity ].
Qed.

Lemma obj_set_keys k v o x :
  In x (map fst (obj_set k v o)) -> x = k \/ In x (map fst o).
Proof.
  induction o as [ | [k' v'] o IH ]; simpl.
  - intuition.
  - destruct (String.eqb_spec k' k) as [ -> | _ ]; simpl; intuition.
Qed.

Lemma obj_set_NoDup k v o : List.NoDup (map fst o) -> List.NoDup (map fst (obj_set k v o)).
Proof.
  induction o as [ | [k' v'] o IH ]; simpl; intros H.
  - constructor; [ simpl; tauto | constructor ].
  - inversion H as [ | ? ? Hk Ho ]; subst.
    destruct (String.eqb_spec k' k) as [ -> | Hne ]; simpl.
    + constructor; assumption.
    + constructor; [ | apply IH, Ho ].
      intros Hin. apply obj_set_keys in Hin. destruct Hin; congruence.
Qed.

Lemma member_obj_set_same k v o :
  List.NoDup (map fst o) -> member k (obj_set k v o) = Some v.
Proof.
  induction o as [ | [k' v'] o IH ]; simpl; intros H.
  - rewrite String.eqb_refl. reflexivity.
  - inversion H as [ | ? ? Hk Ho ]; subst.
    destruct (String.eqb_spec k' k) as [ -> | Hne ]; simpl.
    + rewrite member_absent by assumption. rewrite String.eqb_refl. reflexivity.
    + rewrite IH by assumption. reflexivity.
Qed.

Lemma member_obj_set_other k k' v o :
  k' <> k -> member k' (obj_set k v o) = member k' o.
Proof.
  intros Hne. induction o as [ | [k0 v0] o IH ]; simpl.
  - destruct (String.eqb_spec k k'); [ congruence | reflexivity ].
  - destruct (String.eqb_spec k0 k) as [ -> | H0 ]; simpl.
    + destruct (member k' o); [ reflexivity | ].
      destruct (String.eqb_spec k k'); [ congruence | reflexivity ].
    + rewrite IH. reflexivity.
Qed.

Lemma headers_loop k h : forall acc,
  List.NoDup (map fst acc) ->
  let ms := fold_left (fun o kv => obj_set (fst kv) (JStr (snd kv)) o) h acc in
  List.NoDup (map fst ms)
  /\ member k ms
     = match header_value k h with
       | Some s => Some (JStr s)
       | None => member k acc
       end.
Proof.
  induction h as [ | [k' v] h IH ]; intros acc Hacc; simpl.
  - auto.
  - destruct (IH (obj_set k' (JStr v) acc) (obj_set_NoDup _ _ _ Hacc)) as [Hnd Hm].
    simpl in Hnd, Hm. split; [ exact Hnd | ]. rewrite Hm.
    destruct (header_value k h); [ reflexivity | ].
    destruct (String.eqb_spec k' k) as [ -> | Hne ].
    + apply member_obj_set_same, Hacc.
    + apply member_obj_set_other. congruence.
Qed.

(** X1. The record that [toJSON] and [fromResponse] build from a
    [Headers] iteration has every header name once, with the value the
    iteration gave last under that name. *)
Theorem headers_record_last_value_wins (h : Headers) :
  List.NoDup (map fst (members_of (headers_record h)))
  /\ forall k, prop (headers_record h) k = option_map JStr (header_value k h).
Proof.
  unfold headers_record. simpl.
  split; [ apply (headers_loop ""%string h []); constructor | ].
  intros k. destruct (headers_loop k h [] (List.NoDup_nil _)) as [_ E].
  simpl in E. rewrite E. destruct (header_value k h); reflexivity.
Qed.


(** X3. [fromJSON] fails on [null] and [undefined] only, and the error
    it raises is always [Deserialize]. *)
Theorem fromJSON_error_iff (j : jsval) (e : error) :
  ResponseInfo.fromJSON j = Err e
  <-> e = Deserialize /\ (j = undefined \/ j = Some JNull).
Proof.
  split.
  - destruct j as [ [ | b | m x | s | items | members ] | ]; simpl;
      intros H; try discriminate H; injection H as <-; auto.
  - intros [-> [ -> | -> ]]; reflexivity.
Qed.

(** X4. The text that [hash] digests is the same for two requests
    exactly when they have the same URL, method and body: headers never
    matter, and a change of method or body changes the hashed text. *)
Theorem fingerprint_input_iff (r1 r2 : RequestInfo.t) :
  JSON_stringify false (RequestInfo.payload r1)
  = JSON_stringify false (RequestInfo.payload r2)
  <-> RequestInfo.url r1 = RequestInfo.url r2
      /\ RequestInfo.method r1 = RequestInfo.method r2
      /\ RequestInfo.body r1 = RequestInfo.body r2.
Proof.
  split; [ apply payload_inj | ].
  intros (Hu & Hm & Hb). rewrite !payload_members, Hu, Hm, Hb. reflexivity.
Qed.

(** ** The fingerprint as a file name *)

Lemma land_15_lt x : (N.land x 15 < 16)%N.
Proof.
  change 15%N with (N.ones 4). rewrite N.land_ones.
  apply N.mod_lt. discriminate.
Qed.

Lemma hex_digit_is_hex n : (n < 16)%N -> is_hex (hex_digit n) = true.
Proof.
  intros H. destruct n as [ | p ]; [ reflexivity | ].
  do 4 (try destruct p as [ p | p | ]; try reflexivity); lia.
Qed.

Lemma hex32_hex x : length (Sha1.hex32 x) = 8 /\ forallb is_hex (Sha1.hex32 x) = true.
Proof.
  unfold Sha1.hex32. split.
  - rewrite length_map. reflexivity.
  - apply forallb_forall. intros c Hc. apply in_map_iff in Hc as (i & <- & _).
    apply hex_digit_is_hex, land_15_lt.
Qed.

Lemma Sha1_hex_chars s :
  length (chars (Sha1.hex s)) = 40 /\ forallb is_hex (chars (Sha1.hex s)) = true.
Proof.
  unfold Sha1.hex.
  destruct (Sha1.blocks _ _ _) as [[[[h0 h1] h2] h3] h4].
  unfold chars. rewrite list_ascii_of_string_of_list_ascii.
  rewrite !length_app, !forallb_app.
  destruct (hex32_hex h0) as [-> ->], (hex32_hex h1) as [-> ->],
    (hex32_hex h2) as [-> ->], (hex32_hex h3) as [-> ->], (hex32_hex h4) as [-> ->].
  split; reflexivity.
Qed.

Lemma hex_no_separator l :
  forallb is_hex l = true -> existsb (Ascii.eqb "/"%char) l = false.
Proof.
  induction l as [ | c l IH ]; [ reflexivity | ]. cbn [forallb existsb].
  intros H. apply andb_prop in H as [Hc Hl]. rewrite (IH Hl), orb_false_r.
  destruct (Ascii.eqb_spec "/"%char c) as [ <- | ]; [ discriminate Hc | reflexivity ].
Qed.

(** X5. The fingerprint of every request is a string of forty
    lower-case hexadecimal digits: it holds no path separator and no
    dot, so it is one segment of the storage path. *)
Theorem hash_is_forty_hex_digits (req : RequestInfo.t) :
  length (chars (RequestInfo.hash req)) = 40
  /\ forallb is_hex (chars (RequestInfo.hash req)) = true
  /\ existsb (Ascii.eqb "/"%char) (chars (RequestInfo.hash req)) = false.
Proof.
  unfold RequestInfo.hash.
  destruct (Sha1_hex_chars (JSON_stringify false (RequestInfo.payload req))) as [L H].
  auto using hex_no_separator.
Qed.

(** ** The storage path *)

Lemma chars_app a b : chars (a +:+ b) = chars a ++ chars b.
Proof.
  unfold chars. induction a as [ | c a IH ]; [ reflexivity | ].
  change (String c a +:+ b) with (String c (a +:+ b)).
  cbn [list_ascii_of_string app]. rewrite IH. reflexivity.
Qed.

Lemma string_of_text_app a b :
  string_of_list_ascii (a ++ b) = string_of_list_ascii a +:+ string_of_list_ascii b.
Proof. induction a as [ | c a IH ]; [ reflexivity | ]. simpl. rewrite IH. reflexivity. Qed.

Lemma chars_inj a b : chars a = chars b -> a = b.
Proof.
  intros E. apply (f_equal string_of_list_ascii) in E. unfold chars in E.
  rewrite !string_of_list_ascii_of_string in E. exact E.
Qed.

Lemma plain_segment_chars s : plain_segment s -> plain (chars s).
Proof.
  intros (H0 & H1 & H2 & H3). repeat split; [ | | | exact H3 ];
    intros E; [ apply H0 | apply H1 | apply H2 ]; apply chars_inj; exact E.
Qed.

Lemma split_segment a r cur :
  existsb (Ascii.eqb "/"%char) a = false ->
  path.split (a ++ path.sep :: r) cur = (rev cur ++ a) :: path.split r [].
Proof.
  revert cur. induction a as [ | c a IH ]; intros cur H.
  - simpl. rewrite app_nil_r. reflexivity.
  - cbn [existsb] in H. apply orb_false_elim in H as [Hc Ha].
    cbn [app path.split]. unfold path.sep at 1.
    rewrite Ascii.eqb_sym, Hc, (IH _ Ha). cbn [rev]. rewrite <- app_assoc. reflexivity.
Qed.

Lemma split_last a cur :
  existsb (Ascii.eqb "/"%char) a = false -> path.split a cur = [rev cur ++ a].
Proof.
  revert cur. induction a as [ | c a IH ]; intros cur H.
  - simpl. rewrite app_nil_r. reflexivity.
  - cbn [existsb] in H. apply orb_false_elim in H as [Hc Ha].
    cbn [path.split]. unfold path.sep.
    rewrite Ascii.eqb_sym, Hc, (IH _ Ha). cbn [rev]. rewrite <- app_assoc. reflexivity.
Qed.

Lemma step_plain b stack seg : plain seg -> path.step b stack seg = seg :: stack.
Proof.
  intros (H0 & H1 & H2 & _). unfold path.step.
  repeat (case_decide; try congruence).
Qed.

Lemma step_dot b stack : path.step b stack (chars ".") = stack.
Proof. unfold path.step. repeat (case_decide; try congruence). Qed.

Lemma plain_tmp : plain (chars "tmp").
Proof. repeat split; discriminate. Qed.

Lemma plain_cache : plain (chars "cache").
Proof. repeat split; discriminate. Qed.

Lemma last_app_nonempty (a b : text) d : b <> [] -> List.last (a ++ b) d = List.last b d.
Proof.
  intros Hb. induction a as [ | c a IH ]; [ reflexivity | ].
  cbn [app]. destruct (a ++ b) eqn:E; [ | exact IH ].
  apply app_eq_nil in E as [_ ?]. congruence.
Qed.

(** The file name of an entry: the fingerprint and [.json]. *)
Lemma file_name_plain s :
  plain (chars (Sha1.hex s +:+ ".json"))
  /\ List.last (chars (Sha1.hex s +:+ ".json")) "."%char = "n"%char.
Proof.
  destruct (Sha1_hex_chars s) as [L H]. rewrite chars_app.
  assert (length (chars (Sha1.hex s) ++ chars ".json") = 45) as Len
    by (rewrite length_app, L; reflexivity).
  split; [ repeat split | ].
  - intros E. rewrite E in Len. discriminate Len.
  - intros E. rewrite E in Len. discriminate Len.
  - intros E. rewrite E in Len. discriminate Len.
  - rewrite existsb_app, (hex_no_separator _ H). reflexivity.
  - rewrite last_app_nonempty by discriminate. reflexivity.
Qed.

Lemma normalize_cons p first q :
  p = first :: q ->
  path.normalize p
  = let isAbsolute := Ascii.eqb first path.sep in
    let trailingSeparator := Ascii.eqb (List.last p first) path.sep in
    let body :=
      path.join_with (rev (fold_left (path.step (negb isAbsolute)) (path.split p []) [])) in
    let body := if decide (body = []) then (if isAbsolute then [] else chars ".") else body in
    let body :=
      if negb (bool_decide (body = [])) && trailingSeparator then body ++ [path.sep] else body in
    if isAbsolute then path.sep :: body else body.
Proof. intros ->. reflexivity. Qed.

Lemma split_root tail :
  path.split (chars "./tmp/cache" ++ path.sep :: tail) []
  = chars "." :: chars "tmp" :: chars "cache" :: path.split tail [].
Proof. reflexivity. Qed.

(** [normalize] on the root followed by plain segments. *)
Lemma normalize_under_root (segs : list text) (tail : text) :
  Forall plain segs ->
  segs <> [] ->
  tail = path.join_with segs ->
  path.split tail [] = segs ->
  List.last tail "."%char <> "/"%char ->
  path.normalize (chars "./tmp/cache" ++ path.sep :: tail) = chars "tmp/cache/" ++ tail.
Proof.
  intros Hplain Hne Htail Hsplit Hlast.
  rewrite (normalize_cons _ "."%char (chars "/tmp/cache" ++ path.sep :: tail)) by reflexivity.
  change (Ascii.eqb "." path.sep) with false. cbv zeta. cbn [negb].
  rewrite split_root, Hsplit. cbn [fold_left].
  rewrite step_dot, !step_plain by (apply plain_tmp || apply plain_cache).
  assert (forall stack, fold_left (path.step true) segs stack = rev segs ++ stack) as Fold.
  { clear Hne Htail Hsplit. induction Hplain as [ | seg segs Hseg _ IH ]; intros stack.
    - reflexivity.
    - cbn [fold_left rev]. rewrite step_plain by exact Hseg. rewrite IH, <- app_assoc.
      reflexivity. }
  rewrite Fold, rev_app_distr, rev_involutive. cbn [rev app].
  assert (path.join_with (chars "tmp" :: chars "cache" :: segs) = chars "tmp/cache/" ++ tail) as J.
  { rewrite Htail. destruct segs; [ congruence | reflexivity ]. }
  rewrite J.
  rewrite decide_False by discriminate.
  rewrite bool_decide_eq_false_2 by discriminate. cbn [negb andb].
  assert (tail <> []) as Tne.
  { rewrite Htail. destruct Hplain as [ | seg segs Hseg _ ]; [ congruence | ].
    destruct Hseg as (H0 & _). destruct seg; [ congruence | ]. destruct segs; discriminate. }
  replace (Ascii.eqb (List.last _ _) path.sep) with false; [ reflexivity | ].
  symmetry. apply Ascii.eqb_neq.
  change (chars "./tmp/cache" ++ path.sep :: tail) with (chars "./tmp/cache/" ++ tail).
  rewrite last_app_nonempty by exact Tne. exact Hlast.
Qed.

Lemma normalize_file (F : text) :
  plain F -> List.last F "."%char <> "/"%char ->
  path.normalize (chars "./tmp/cache" ++ path.sep :: F) = chars "tmp/cache/" ++ F.
Proof.
  intros HF Hlast. apply (normalize_under_root [F]).
  - constructor; [ exact HF | constructor ].
  - discriminate.
  - reflexivity.
  - rewrite split_last by apply HF. reflexivity.
  - exact Hlast.
Qed.

Lemma normalize_host_file (H F : text) :
  plain H -> plain F -> List.last F "."%char <> "/"%char ->
  path.normalize (chars "./tmp/cache" ++ path.sep :: H ++ path.sep :: F)
  = chars "tmp/cache/" ++ H ++ path.sep :: F.
Proof.
  intros HH HF Hlast. apply (normalize_under_root [H; F]).
  - constructor; [ exact HH | constructor; [ exact HF | constructor ] ].
  - discriminate.
  - cbn [path.join_with]. destruct F; [ destruct HF; congruence | reflexivity ].
  - rewrite split_segment by apply HH. rewrite split_last by apply HF. reflexivity.
  - destruct HF as (F0 & _). rewrite (last_app_nonempty H (path.sep :: F)) by discriminate.
    destruct F; [ congruence | exact Hlast ].
Qed.

Lemma join_root_host_file (h f : string) :
  plain (chars h) -> plain (chars f) -> List.last (chars f) "."%char <> "/"%char ->
  path.join ["./tmp/cache"; h; f]%string = "tmp/cache/" +:+ h +:+ "/" +:+ f.
Proof.
  intros Hh Hf Hlast. unfold path.join. cbn [map].
  rewrite !filter_cons_True by (discriminate || apply Hh || apply Hf).
  rewrite filter_nil. cbn [path.join_with].
  rewrite normalize_host_file by assumption.
  change (path.sep :: chars f) with (chars "/" ++ chars f).
  rewrite !string_of_text_app. unfold chars.
  rewrite !string_of_list_ascii_of_string. reflexivity.
Qed.

Lemma join_root_file (f : string) :
  plain (chars f) -> List.last (chars f) "."%char <> "/"%char ->
  path.join ["./tmp/cache"; ""; f]%string = "tmp/cache/" +:+ f.
Proof.
  intros Hf Hlast. unfold path.join. cbn [map].
  rewrite filter_cons_True by discriminate.
  rewrite filter_cons_False by (intros H; apply H; reflexivity).
  rewrite filter_cons_True by apply Hf.
  rewrite filter_nil. cbn [path.join_with].
  rewrite normalize_file by assumption.
  rewrite !string_of_text_app. unfold chars.
  rewrite !string_of_list_ascii_of_string. reflexivity.
Qed.

Lemma buildFilepath_plain_host req :
  plain_segment (URL_host (RequestInfo.url req)) ->
  Cache.buildFilepath req
  = "tmp/cache/" +:+ URL_host (RequestInfo.url req) +:+ "/"
      +:+ RequestInfo.hash req +:+ ".json".
Proof.
  intros Hh. unfold Cache.buildFilepath, RequestInfo.hash.
  destruct (file_name_plain (JSON_stringify false (RequestInfo.payload req))) as [Hf Hl].
  apply join_root_host_file;
    [ apply plain_segment_chars, Hh | exact Hf | rewrite Hl; discriminate ].
Qed.

Lemma buildFilepath_no_host req :
  URL_host (RequestInfo.url req) = ""%string ->
  Cache.buildFilepath req = "tmp/cache/" +:+ RequestInfo.hash req +:+ ".json".
Proof.
  intros Hh. unfold Cache.buildFilepath, RequestInfo.hash. rewrite Hh.
  destruct (file_name_plain (JSON_stringify false (RequestInfo.payload req))) as [Hf Hl].
  apply join_root_file; [ exact Hf | rewrite Hl; discriminate ].
Qed.

Lemma segment_unique (a b x y : text) :
  existsb (Ascii.eqb "/"%char) a = false ->
  existsb (Ascii.eqb "/"%char) b = false ->
  a ++ "/"%char :: x = b ++ "/"%char :: y -> a = b /\ x = y.
Proof.
  revert b. induction a as [ | c a IH ]; intros [ | d b ] Ha Hb E.
  - injection E as ->. auto.
  - cbn [existsb] in Hb. apply orb_false_elim in Hb as [Hd _].
    injection E as <- _. discriminate Hd.
  - cbn [existsb] in Ha. apply orb_false_elim in Ha as [Hc _].
    injection E as -> _. discriminate Hc.
  - cbn [existsb] in Ha, Hb.
    apply orb_false_elim in Ha as [_ Ha]. apply orb_false_elim in Hb as [_ Hb].
    injection E as -> E. destruct (IH b Ha Hb E) as [-> ->]. auto.
Qed.

Lemma plain_paths_inj (h1 h2 f1 f2 : string) :
  plain_segment h1 -> plain_segment h2 ->
  "tmp/cache/" +:+ h1 +:+ "/" +:+ f1 +:+ ".json"
  = "tmp/cache/" +:+ h2 +:+ "/" +:+ f2 +:+ ".json" ->
  h1 = h2 /\ f1 = f2.
Proof.
  intros (_ & _ & _ & H1) (_ & _ & _ & H2) E.
  apply (f_equal chars) in E. rewrite !chars_app in E.
  apply app_inv_head in E. apply (segment_unique _ _ _ _ H1 H2) in E as [Eh Ef].
  apply app_inv_tail in Ef. split; apply chars_inj; assumption.
Qed.

Lemma break_no_separator (stop : ascii -> bool) s :
  stop "/"%char = true ->
  existsb (Ascii.eqb "/"%char) (fst (break stop s)) = false.
Proof.
  intros Hstop. induction s as [ | c s IH ]; [ reflexivity | ].
  cbn [break]. destruct (stop c) eqn:E; [ reflexivity | ].
  destruct (break stop s) as [a b]. cbn [fst existsb] in *. rewrite IH, orb_false_r.
  destruct (Ascii.eqb_spec "/"%char c) as [ <- | ]; [ congruence | reflexivity ].
Qed.

Lemma after_userinfo_no_separator s :
  existsb (Ascii.eqb "/"%char) s = false ->
  existsb (Ascii.eqb "/"%char) (after_userinfo s) = false.
Proof.
  induction s as [ | c s IH ]; [ reflexivity | ].
  intros H. pose proof H as H'. cbn [existsb] in H'.
  apply orb_false_elim in H' as [_ Hs]. cbn [after_userinfo].
  destruct (existsb (Ascii.eqb "@"%char) s); [ exact (IH Hs) | ].
  destruct (Ascii.eqb c "@"%char); [ exact Hs | exact H ].
Qed.

Lemma URL_host_no_separator u :
  existsb (Ascii.eqb "/"%char) (chars (URL_host u)) = false.
Proof.
  unfold URL_host.
  destruct (snd (break _ (chars (href u)))) as [ | c [ | a [ | b r ] ] ]; try reflexivity.
  destruct (Ascii.eqb a "/"%char && Ascii.eqb b "/"%char); [ | reflexivity ].
  unfold chars. rewrite list_ascii_of_string_of_list_ascii.
  apply after_userinfo_no_separator, break_no_separator. reflexivity.
Qed.

Lemma named_host_plain u : named (URL_host u) -> plain_segment (URL_host u).
Proof.
  intros (H0 & H1 & H2). repeat split; try assumption. apply URL_host_no_separator.
Qed.

Lemma step_up b top below :
  top <> chars ".." -> path.step b (top :: below) (chars "..") = below.
Proof.
  intros H. unfold path.step.
  rewrite decide_False by discriminate. rewrite decide_False by discriminate.
  rewrite decide_True by reflexivity. rewrite decide_False by exact H. reflexivity.
Qed.

Lemma normalize_dot_file (F : text) :
  plain F -> List.last F "."%char <> "/"%char ->
  path.normalize (chars "./tmp/cache" ++ path.sep :: chars "." ++ path.sep :: F)
  = chars "tmp/cache/" ++ F.
Proof.
  intros HF Hlast.
  rewrite (normalize_cons _ "."%char
             (chars "/tmp/cache" ++ path.sep :: chars "." ++ path.sep :: F)) by reflexivity.
  change (Ascii.eqb "." path.sep) with false. cbv zeta. cbn [negb].
  rewrite split_root, split_segment by reflexivity.
  rewrite split_last by apply HF. cbn [rev app fold_left].
  rewrite !step_dot, !step_plain by (apply plain_tmp || apply plain_cache || exact HF).
  cbn [rev app]. destruct HF as (F0 & _).
  assert (path.join_with [chars "tmp"; chars "cache"; F] = chars "tmp/cache/" ++ F) as J
    by reflexivity.
  rewrite J. rewrite decide_False by discriminate.
  rewrite bool_decide_eq_false_2 by discriminate. cbn [negb andb].
  replace (Ascii.eqb (List.last _ _) path.sep) with false; [ reflexivity | ].
  symmetry. apply Ascii.eqb_neq.
  change (chars "./tmp/cache" ++ path.sep :: chars "." ++ path.sep :: F)
    with (chars "./tmp/cache/./" ++ F).
  rewrite last_app_nonempty by exact F0. exact Hlast.
Qed.

Lemma normalize_up_file (F : text) :
  plain F -> List.last F "."%char <> "/"%char ->
  path.normalize (chars "./tmp/cache" ++ path.sep :: chars ".." ++ path.sep :: F)
  = chars "tmp/" ++ F.
Proof.
  intros HF Hlast.
  rewrite (normalize_cons _ "."%char
             (chars "/tmp/cache" ++ path.sep :: chars ".." ++ path.sep :: F)) by reflexivity.
  change (Ascii.eqb "." path.sep) with false. cbv zeta. cbn [negb].
  rewrite split_root, split_segment by reflexivity.
  rewrite split_last by apply HF. cbn [rev app fold_left].
  rewrite step_dot.
  rewrite (step_plain _ _ (chars "tmp")) by apply plain_tmp.
  rewrite (step_plain _ _ (chars "cache")) by apply plain_cache.
  rewrite step_up by discriminate. rewrite step_plain by exact HF.
  cbn [rev app]. destruct HF as (F0 & _).
  assert (path.join_with [chars "tmp"; F] = chars "tmp/" ++ F) as J by reflexivity.
  rewrite J. rewrite decide_False by discriminate.
  rewrite bool_decide_eq_false_2 by discriminate. cbn [negb andb].
  replace (Ascii.eqb (List.last _ _) path.sep) with false; [ reflexivity | ].
  symmetry. apply Ascii.eqb_neq.
  change (chars "./tmp/cache" ++ path.sep :: chars ".." ++ path.sep :: F)
    with (chars "./tmp/cache/../" ++ F).
  rewrite last_app_nonempty by exact F0. exact Hlast.
Qed.

Lemma buildFilepath_dot_host req :
  URL_host (RequestInfo.url req) = "."%string ->
  Cache.buildFilepath req = "tmp/cache/" +:+ RequestInfo.hash req +:+ ".json".
Proof.
  intros H. unfold Cache.buildFilepath. rewrite H. unfold RequestInfo.hash.
  destruct (file_name_plain (JSON_stringify false (RequestInfo.payload req))) as [HF HL].
  unfold path.join. cbn [map].
  rewrite !filter_cons_True by (discriminate || apply HF).
  rewrite filter_nil. cbn [path.join_with].
  rewrite normalize_dot_file by (exact HF || (rewrite HL; discriminate)).
  rewrite !string_of_text_app. unfold chars.
  rewrite !string_of_list_ascii_of_string. reflexivity.
Qed.

Lemma buildFilepath_up_host req :
  URL_host (RequestInfo.url req) = ".."%string ->
  Cache.buildFilepath req = "tmp/" +:+ RequestInfo.hash req +:+ ".json".
Proof.
  intros H. unfold Cache.buildFilepath. rewrite H. unfold RequestInfo.hash.
  destruct (file_name_plain (JSON_stringify false (RequestInfo.payload req))) as [HF HL].
  unfold path.join. cbn [map].
  rewrite !filter_cons_True by (discriminate || apply HF).
  rewrite filter_nil. cbn [path.join_with].
  rewrite normalize_up_file by (exact HF || (rewrite HL; discriminate)).
  rewrite !string_of_text_app. unfold chars.
  rewrite !string_of_list_ascii_of_string. reflexivity.
Qed.

(** Where the URL has no host, the path has no host segment: the file
    of a [mailto:] request lies directly under the root. *)
Lemma path_without_host_segment :
  URL_host (RequestInfo.url Scenario.req_mail) = ""%string
  /\ RequestInfo.hash Scenario.req_mail = "2da6741d5e7dce3100249640ea7a32b322ac1570"%string
  /\ Cache.buildFilepath Scenario.req_mail
     = "tmp/cache/2da6741d5e7dce3100249640ea7a32b322ac1570.json"%string
  /\ Cache.buildFilepath Scenario.req_mail
     <> ("tmp/cache/" +:+ URL_host (RequestInfo.url Scenario.req_mail) +:+ "/"
         +:+ RequestInfo.hash Scenario.req_mail +:+ ".json")%string.
Proof.
  assert (Cache.buildFilepath Scenario.req_mail
          = "tmp/cache/2da6741d5e7dce3100249640ea7a32b322ac1570.json"%string) as E
    by (vm_compute; reflexivity).
  split; [ reflexivity | ]. split; [ vm_compute; reflexivity | ]. split; [ exact E | ].
  rewrite E. vm_compute. discriminate.
Qed.

(** C7, amended. [set] and [get] use one storage path for a request.
    Where the URL has a host other than [.] and [..], the path is the
    root [tmp/cache], the host and the fingerprint followed by [.json],
    separated by [/]; where the URL has no host (or the host [.]) the
    path is the root and the file name, with no host segment, and for
    the host [..] the file lies in [tmp], above the root.  [set] writes
    its record at the path and changes no other file, and the answer of
    [get] depends on that file only.  Requests with the same
    fingerprint input (URL, method and body, as hashed) have the same
    fingerprint, host and path; and two requests with hosts other than
    [.] and [..] have the same path exactly when they have the same
    host and the same fingerprint. *)
Theorem storage_path req :
  (named (URL_host (RequestInfo.url req)) ->
   Cache.buildFilepath req
   = "tmp/cache/" +:+ URL_host (RequestInfo.url req) +:+ "/"
       +:+ RequestInfo.hash req +:+ ".json")
  /\ (URL_host (RequestInfo.url req) = ""%string
      \/ URL_host (RequestInfo.url req) = "."%string ->
      Cache.buildFilepath req = "tmp/cache/" +:+ RequestInfo.hash req +:+ ".json")
  /\ (URL_host (RequestInfo.url req) = ".."%string ->
      Cache.buildFilepath req = "tmp/" +:+ RequestInfo.hash req +:+ ".json")
  /\ (forall res w,
        ResponseInfo.isSuccessful res = true ->
        fault_free w (Cache.buildFilepath req) ->
        files (world (Cache.set req res w)) !! Cache.buildFilepath req
        = Some (JSON_stringify true (Cache.item (now w) req res)))
  /\ (forall res w p,
        p <> Cache.buildFilepath req ->
        files (world (Cache.set req res w)) !! p = files w !! p)
  /\ (forall w1 w2,
        files w1 !! Cache.buildFilepath req = files w2 !! Cache.buildFilepath req ->
        faults w1 OpRead (Cache.buildFilepath req)
        = faults w2 OpRead (Cache.buildFilepath req) ->
        value (Cache.get req w1) = value (Cache.get req w2))
  /\ (forall req',
        JSON_stringify false (RequestInfo.payload req)
        = JSON_stringify false (RequestInfo.payload req') ->
        RequestInfo.hash req = RequestInfo.hash req'
        /\ URL_host (RequestInfo.url req) = URL_host (RequestInfo.url req')
        /\ Cache.buildFilepath req = Cache.buildFilepath req')
  /\ (forall req',
        named (URL_host (RequestInfo.url req)) ->
        named (URL_host (RequestInfo.url req')) ->
        (Cache.buildFilepath req = Cache.buildFilepath req'
         <-> URL_host (RequestInfo.url req) = URL_host (RequestInfo.url req')
             /\ RequestInfo.hash req = RequestInfo.hash req')).
Proof.
  split; [ intros N; apply buildFilepath_plain_host, named_host_plain, N | ].
  split; [ intros [ E | E ]; [ apply buildFilepath_no_host | apply buildFilepath_dot_host ];
           exact E | ].
  split; [ apply buildFilepath_up_host | ].
  split; [ | split; [ | split; [ | split ] ] ].
  - intros res w H F. rewrite set_successful by assumption. apply lookup_insert_eq.
  - intros res w p. apply set_other_files.
  - intros w1 w2 Hfiles Hfaults. rewrite !get_outcome. simpl.
    rewrite Hfiles, Hfaults. reflexivity.
  - intros req' E. destruct (payload_inj _ _ E) as (Hurl & Hmethod & Hbody).
    split; [ unfold RequestInfo.hash; rewrite E; reflexivity | ].
    split; [ rewrite Hurl; reflexivity | ].
    apply buildFilepath_congruence; assumption.
  - intros req' N N'. apply named_host_plain in N, N'.
    rewrite (buildFilepath_plain_host req N), (buildFilepath_plain_host req' N'). split.
    + apply plain_paths_inj; assumption.
    + intros (-> & ->). reflexivity.
Qed.

(** The path of [Sample.req_a] has the three parts; [Sample.req_b], with
    other headers, shares it, and a request to another host does not.
    The file of a request to the host [..] is not under the root. *)
Lemma storage_path_witness :
  named (URL_host (RequestInfo.url Sample.req_a))
  /\ Cache.buildFilepath Sample.req_a
     = "tmp/cache/example.com/124d4c67b74f87f973c5ff193e76fdd10c2ef03f.json"%string
  /\ Cache.buildFilepath Sample.req_a = Cache.buildFilepath Sample.req_b
  /\ Cache.buildFilepath Sample.req_a <> Cache.buildFilepath Scenario.req_c
  /\ Cache.buildFilepath Scenario.req_up
     = "tmp/c136080ce7bee8e3bb89b70c18146d47a1a294f0.json"%string.
Proof.
  assert (named (URL_host (RequestInfo.url Sample.req_a))) as Na
    by (repeat split; vm_compute; congruence).
  assert (named (URL_host (RequestInfo.url Scenario.req_c))) as Nc
    by (repeat split; vm_compute; congruence).
  destruct (storage_path Sample.req_a) as (Shape & _ & _ & _ & _ & _ & Same & Iff).
  split; [ exact Na | ]. split; [ | split; [ | split ] ].
  - rewrite (Shape Na). vm_compute. reflexivity.
  - apply (Same Sample.req_b). reflexivity.
  - intros E. apply (Iff Scenario.req_c Na Nc) in E. destruct E as (Host & _).
    vm_compute in Host. discriminate.
  - destruct (storage_path Scenario.req_up) as (_ & _ & Up & _).
    rewrite Up by reflexivity. vm_compute. reflexivity.
Defined.

(** ** The cache and the decorator, end to end *)

Lemma isSuccessful_fromResponse answer :
  ResponseInfo.isSuccessful (ResponseInfo.fromResponse answer)
  = (Response.status answer =? 200)%Z.
Proof. unfold ResponseInfo.isSuccessful, ResponseInfo.fromResponse. apply strict_eq_Z_integer. Qed.


Lemma get_after_set r1 r2 res w :
  ResponseInfo.isSuccessful res = true ->
  fault_free w (Cache.buildFilepath r1) ->
  Cache.buildFilepath r2 = Cache.buildFilepath r1 ->
  value (Cache.get r2 (world (Cache.set r1 res w))) = Ok (Some res).
Proof.
  intros Hres F Hpath. rewrite (set_successful r1 res w Hres F). cbn [world].
  rewrite get_outcome, Hpath. cbn [value faults files with_files].
  rewrite (F OpRead), lookup_insert_eq, JSON_parse_stringify.
  unfold Cache.item at 1. rewrite entry_response_item. reflexivity.
Qed.

Lemma sample_get_absent req answer :
  value (Cache.get req (Sample.empty_world answer)) = Ok None.
Proof.
  rewrite get_outcome. cbn [value faults files Sample.empty_world Sample.world_with].
  rewrite lookup_empty. reflexivity.
Qed.

(** X8. A response of the origin that is not a 200 is returned to the
    caller with an empty body and is not cached: the world is left as it
    was, so the same request fetches the origin again. *)
Theorem failures_are_not_cached req w answer :
  value (Cache.get req w) = Ok None ->
  origin w (RequestInfo.url req) (RequestInfo.headers req) = Ok answer ->
  Response.status answer <> 200%Z ->
  Fetcher.fetch req w
  = {| value := Ok (ResponseInfo.fromResponse answer);
       world := w;
       trace := [Log (miss_line req);
                 Fetch (RequestInfo.url req) (RequestInfo.headers req);
                 Log skip_line] |}
  /\ ResponseInfo.data (ResponseInfo.fromResponse answer) = Some (JStr "")
  /\ fetches (trace (Fetcher.fetch req (world (Fetcher.fetch req w)))) = 1.
Proof.
  intros Hget Horigin Hstatus.
  assert (ResponseInfo.isSuccessful (ResponseInfo.fromResponse answer) = false) as Hres
    by (rewrite isSuccessful_fromResponse; apply Z.eqb_neq, Hstatus).
  assert (Fetcher.fetch req w
          = {| value := Ok (ResponseInfo.fromResponse answer); world := w;
               trace := [Log (miss_line req);
                         Fetch (RequestInfo.url req) (RequestInfo.headers req);
                         Log skip_line] |}) as E.
  { unfold Fetcher.fetch. rewrite CachableRequest_outcome, Hget.
    unfold Fetcher.fetch_origin, bind, fetch, ret. simpl. rewrite Horigin. simpl.
    rewrite set_unsuccessful by exact Hres. reflexivity. }
  split; [ exact E | ]. split.
  - unfold ResponseInfo.fromResponse. simpl.
    rewrite (proj2 (Z.eqb_neq _ _) Hstatus). reflexivity.
  - rewrite E. cbn [world]. rewrite E. reflexivity.
Qed.

Lemma failures_are_not_cached_witness :
  Fetcher.fetch Sample.req_a (Sample.empty_world (Ok Sample.failure))
  = {| value := Ok (ResponseInfo.fromResponse Sample.failure);
       world := Sample.empty_world (Ok Sample.failure);
       trace := [Log (miss_line Sample.req_a);
                 Fetch (RequestInfo.url Sample.req_a) (RequestInfo.headers Sample.req_a);
                 Log skip_line] |}.
Proof.
  apply (failures_are_not_cached Sample.req_a (Sample.empty_world (Ok Sample.failure))
           Sample.failure);
    [ apply sample_get_absent | reflexivity | discriminate ].
Defined.

(** X9. After a call that missed and fetched a 200 from the origin, a
    call for a request with the same URL, method and body (whatever its
    headers) is served from the cache: it returns the same descriptor,
    fetches nothing and changes nothing. *)
Theorem second_call_is_served_from_cache req req' w answer :
  fault_free w (Cache.buildFilepath req) ->
  value (Cache.get req w) = Ok None ->
  origin w (RequestInfo.url req) (RequestInfo.headers req) = Ok answer ->
  Response.status answer = 200%Z ->
  RequestInfo.url req' = RequestInfo.url req ->
  RequestInfo.method req' = RequestInfo.method req ->
  RequestInfo.body req' = RequestInfo.body req ->
  Fetcher.fetch req' (world (Fetcher.fetch req w))
  = {| value := Ok (ResponseInfo.fromResponse answer);
       world := world (Fetcher.fetch req w);
       trace := [Log (hit_line req')] |}.
Proof.
  intros F Hget Horigin Hstatus Hurl Hmethod Hbody.
  assert (ResponseInfo.isSuccessful (ResponseInfo.fromResponse answer) = true) as Hres
    by (rewrite isSuccessful_fromResponse; apply Z.eqb_eq, Hstatus).
  assert (world (Fetcher.fetch req w)
          = world (Cache.set req (ResponseInfo.fromResponse answer) w)) as W.
  { unfold Fetcher.fetch. rewrite CachableRequest_outcome, Hget.
    unfold Fetcher.fetch_origin, bind, fetch, ret. simpl. rewrite Horigin. simpl.
    rewrite (set_successful _ _ _ Hres F). reflexivity. }
  rewrite W. unfold Fetcher.fetch at 1. rewrite CachableRequest_outcome.
  rewrite (get_after_set req req' _ w Hres F)
    by (apply buildFilepath_congruence; assumption).
  reflexivity.
Qed.

Lemma second_call_is_served_from_cache_witness :
  Fetcher.fetch Sample.req_b
    (world (Fetcher.fetch Sample.req_a (Sample.empty_world (Ok Sample.hello))))
  = {| value := Ok Sample.res_hello;
       world := world (Fetcher.fetch Sample.req_a (Sample.empty_world (Ok Sample.hello)));
       trace := [Log (hit_line Sample.req_b)] |}.
Proof.
  apply (second_call_is_served_from_cache Sample.req_a Sample.req_b
           (Sample.empty_world (Ok Sample.hello)) Sample.hello);
    [ apply sample_fault_free | apply sample_get_absent | reflexivity | reflexivity
    | reflexivity | reflexivity | reflexivity ].
Defined.

(** X10. A successful [set] heals the entry: whatever the file of the
    request held before (nothing, a record, text that is no JSON), the
    next [get] for a request with the same URL, method and body answers
    the response that was set. *)
Theorem set_then_get r1 r2 res w :
  ResponseInfo.isSuccessful res = true ->
  fault_free w (Cache.buildFilepath r1) ->
  RequestInfo.url r2 = RequestInfo.url r1 ->
  RequestInfo.method r2 = RequestInfo.method r1 ->
  RequestInfo.body r2 = RequestInfo.body r1 ->
  value ((Cache.set r1 res ;;; Cache.get r2) w) = Ok (Some res).
Proof.
  intros Hres F Hurl Hmethod Hbody. unfold bind.
  pose proof (get_after_set r1 r2 res w Hres F
                (buildFilepath_congruence r2 r1 Hurl Hmethod Hbody)) as G.
  rewrite (set_successful r1 res w Hres F) in G |- *. cbn [value world] in G |- *.
  exact G.
Qed.

Lemma set_then_get_witness :
  JSON_parse "not json" = None
  /\ value ((Cache.set Sample.req_a Sample.res_hello ;;; Cache.get Sample.req_b)
              (Sample.cached "not json"))
     = Ok (Some Sample.res_hello).
Proof.
  split; [ reflexivity | ].
  apply (set_then_get Sample.req_a Sample.req_b Sample.res_hello (Sample.cached "not json"));
    [ reflexivity | apply sample_fault_free | reflexivity | reflexivity | reflexivity ].
Defined.



(** X12. [set] is not atomic: when the file does not exist yet and the
    write fails after [ensureFile] created it, [set] raises the I/O
    error and leaves an empty file behind, on which the next [get] for
    the request raises a SyntaxError. *)
Theorem failed_write_leaves_empty_file req res w f :
  ResponseInfo.isSuccessful res = true ->
  files w !! Cache.buildFilepath req = None ->
  faults w OpStat (Cache.buildFilepath req) = None ->
  faults w OpCreate (Cache.buildFilepath req) = None ->
  faults w OpWrite (Cache.buildFilepath req) = Some f ->
  faults w OpRead (Cache.buildFilepath req) = None ->
  Cache.set req res w
  = {| value := Err (IO f);
       world := with_files w (<[Cache.buildFilepath req := ""%string]> (files w));
       trace := [] |}
  /\ value (Cache.get req (world (Cache.set req res w))) = Err SyntaxError.
Proof.
  intros Hres Hfile Hstat Hcreate Hwrite Hread.
  assert (Cache.set req res w
          = {| value := Err (IO f);
               world := with_files w (<[Cache.buildFilepath req := ""%string]> (files w));
               trace := [] |}) as E.
  { unfold Cache.set. rewrite Hres. simpl.
    unfold bind, ensureFile, Deno_writeTextFile, Date_now, console_log, ret, throw.
    rewrite Hstat, Hfile, Hcreate. simpl. rewrite Hwrite. reflexivity. }
  split; [ exact E | ].
  rewrite E, get_outcome. cbn [value world faults files with_files].
  rewrite Hread, lookup_insert_eq. reflexivity.
Qed.

Lemma failed_write_leaves_empty_file_witness :
  value (Cache.set Sample.req_a Sample.res_hello Scenario.write_protected)
  = Err (IO DiskError)
  /\ value (Cache.get Sample.req_a
              (world (Cache.set Sample.req_a Sample.res_hello Scenario.write_protected)))
     = Err SyntaxError.
Proof.
  destruct (failed_write_leaves_empty_file Sample.req_a Sample.res_hello
              Scenario.write_protected DiskError) as [E G];
    [ reflexivity | apply lookup_empty | reflexivity | reflexivity | reflexivity
    | reflexivity | ].
  split; [ rewrite E; reflexivity | exact G ].
Defined.

(** ** The server, over a whole connection *)

(** X13. The loop ends at the first request event without a target
    (parameter [u] missing or empty): that request is answered 404 with
    an empty body, and whatever follows it on the connection changes
    nothing of what the server does, whatever the requests before it
    were. *)
Theorem serveHttp_stops_at_first_request_without_target
  (URL_new : string -> result URL)
  (cachedFetcher_fetch : RequestInfo.t -> M ResponseInfo.t)
  (before after : list Request.t) (request : Request.t) (w : World) :
  no_target request ->
  Server.serveHttp URL_new cachedFetcher_fetch (before ++ request :: after) w
  = Server.serveHttp URL_new cachedFetcher_fetch (before ++ [request]) w
  /\ Server.serveHttp URL_new cachedFetcher_fetch (request :: after) w
     = {| value := Ok tt; world := w; trace := [not_found_response] |}.
Proof.
  intros H. split.
  - revert w. induction before as [ | r before IH ]; intros w.
    + simpl. destruct H as [ -> | -> ]; reflexivity.
    + simpl. destruct (searchParams_get "u" (Request.searchParams r)) as [ [ | c s ] | ];
        try reflexivity.
      unfold bind. destruct (lift (URL_new (String c s)) w) as [ [ url | e ] w1 t1 ];
        [ | reflexivity ]. cbn [value world trace].
      destruct (cachedFetcher_fetch _ w1) as [ [ res | e ] w2 t2 ]; [ | reflexivity ].
      cbn [value world trace]. unfold respondWith. cbn [value world trace].
      rewrite IH. reflexivity.
  - simpl. destruct H as [ -> | -> ]; reflexivity.
Qed.

Lemma serveHttp_stops_at_first_request_without_target_witness :
  Server.serveHttp Sample.URL_any Fetcher.fetch
    [Sample.with_param; Sample.no_param; Sample.with_param]
    (Sample.empty_world (Ok Sample.hello))
  = Server.serveHttp Sample.URL_any Fetcher.fetch
      [Sample.with_param; Sample.no_param] (Sample.empty_world (Ok Sample.hello)).
Proof.
  apply (serveHttp_stops_at_first_request_without_target Sample.URL_any Fetcher.fetch
           [Sample.with_param] [Sample.with_param] Sample.no_param).
  left. reflexivity.
Defined.



(** X15. A request whose target the URL constructor rejects, or for
    which the fetcher raises, gets no response at all: the exception
    leaves the loop, which writes nothing for this request and serves
    none of the requests after it; the effects are those of the fetcher
    up to its exception. *)
Theorem serveHttp_failure_is_unanswered
  (URL_new : string -> result URL)
  (cachedFetcher_fetch : RequestInfo.t -> M ResponseInfo.t)
  (request : Request.t) (rest : list Request.t) (w : World) (target : string) (e : error) :
  searchParams_get "u" (Request.searchParams request) = Some target ->
  target <> ""%string ->
  (URL_new target = Err e ->
   Server.serveHttp URL_new cachedFetcher_fetch (request :: rest) w
   = {| value := Err e; world := w; trace := [] |})
  /\ (forall url,
        URL_new target = Ok url ->
        value (cachedFetcher_fetch (RequestInfo.fromRequest request url) w) = Err e ->
        value (Server.serveHttp URL_new cachedFetcher_fetch (request :: rest) w) = Err e
        /\ trace (Server.serveHttp URL_new cachedFetcher_fetch (request :: rest) w)
           = trace (cachedFetcher_fetch (RequestInfo.fromRequest request url) w)
        /\ world (Server.serveHttp URL_new cachedFetcher_fetch (request :: rest) w)
           = world (cachedFetcher_fetch (RequestInfo.fromRequest request url) w)).
Proof.
  intros Hu Hne. simpl. rewrite Hu.
  destruct target as [ | c s ]; [ congruence | ]. split.
  - intros E. rewrite E. reflexivity.
  - intros url E F. rewrite E. unfold bind, lift. cbn [value world trace].
    destruct (cachedFetcher_fetch _ w) as [ v w2 t2 ]. cbn [value world trace] in *.
    subst v. auto.
Qed.

Lemma serveHttp_failure_is_unanswered_witness :
  Server.serveHttp Scenario.URL_none Fetcher.fetch [Sample.with_param; Sample.no_param]
    (Sample.empty_world (Ok Sample.hello))
  = {| value := Err TypeError; world := Sample.empty_world (Ok Sample.hello); trace := [] |}.
Proof.
  apply (serveHttp_failure_is_unanswered Scenario.URL_none Fetcher.fetch Sample.with_param
           [Sample.no_param] (Sample.empty_world (Ok Sample.hello))
           "http://example.com/a" TypeError);
    [ reflexivity | discriminate | reflexivity ].
Defined.
